(** * KWIC index (shared-memory, object-oriented variant)

    A shallow embedding of [KWIC-SHOO.cpp]: the comparator [caseSensitive],
    the noise-word test, the tokenizer of [InputFilter], the rotation loop of
    [CircularShiftFilter], the in-place sort of [AlphabetizerFilter], the
    printer of [OutputFilter] and the argument checks of [main].

    Conventions.
    - [std::string] is [string]; a [char] is an [ascii].  The <cctype>
      functions work on [int]: the program hands them a plain [char], which
      is signed on the platform modelled (x86-64 Linux), so a character is
      promoted with [int_of_char] to -128..127, a byte above 127 to a
      negative value.  The functions are those of the C library there in the
      "C" locale, the one a program that never calls [setlocale] runs in;
      their tables start at -128.
    - [vector<string>] is [list string].  The vectors owned through a
      [shared_ptr] by [ShiftRepo] and [SortedShiftRepo] live in a store
      ([gmap loc (list string)]), since [SortedShiftRepo::copy] makes both
      repositories point to one vector.
    - [std::sort] is library code; it is modelled by a merge sort, and
      [std_sort_unique] shows that any algorithm meeting the contract of
      [std::sort] returns the same vector under [caseSensitive]. *)

From Stdlib Require Import ZArith Ascii String List Lia Bool.
From Stdlib Require Import DecimalString.
From stdpp Require Import base decidable option list sorting strings gmap fin_maps.

Import ListNotations.
Local Open Scope string_scope.
Local Open Scope list_scope.
Local Open Scope nat_scope.

(** ** Characters: <cctype> in the "C" locale *)

Module CType.

(** Integer promotion of a (signed) [char]: bytes 0..127 keep their code,
    bytes 128..255 become -128..-1. *)
Definition int_of_char (c : ascii) : Z :=
  let code := Z.of_nat (nat_of_ascii c) in
  if (code <? 128)%Z then code else (code - 256)%Z.

(** Conversion of an [int] back to [char] (as in [result += tolower(c)]). *)
Definition char_of_int (z : Z) : ascii := ascii_of_nat (Z.to_nat (z mod 256)).

Definition isupper (c : Z) : bool := ((65 <=? c) && (c <=? 90))%Z.
Definition islower (c : Z) : bool := ((97 <=? c) && (c <=? 122))%Z.
(** [tolower]: an uppercase letter gives its lowercase form; the table
    entries for -128..-2 hold the byte values 128..254; every other value,
    -1 (EOF) included, is returned as it is. *)
Definition tolower (c : Z) : Z :=
  if isupper c then (c + 32)%Z
  else if ((-128 <=? c) && (c <? -1))%Z then (c + 256)%Z
  else c.

(** [isspace]: space, and the controls \t \n \v \f \r. *)
Definition isspace (c : Z) : bool := ((c =? 32) || ((9 <=? c) && (c <=? 13)))%Z.

End CType.
Import CType.

(** ** Strings *)

(** [a[i]] for [i < a.size()]. *)
Definition at_ (a : string) (i : nat) : ascii :=
  match String.get i a with
  | Some c => c
  | None => zero
  end.

Definition size (a : string) : nat := String.length a.

(** ** The comparator (lines 13-24) *)

(** The [for] loop of [caseSensitive]; [n] counts the iterations that are
    left, i.e. [min(a.size(), b.size()) - i]. *)
Fixpoint caseSensitive_loop (n i : nat) (a b : string) : bool :=
  match n with
  | O => size a <? size b
  | S n' =>
      let ca := int_of_char (at_ a i) in
      let cb := int_of_char (at_ b i) in
      if negb (tolower ca =? tolower cb)%Z then (tolower ca <? tolower cb)%Z
      else if negb (ca =? cb)%Z then islower ca && isupper cb
      else caseSensitive_loop n' (S i) a b
  end.

Definition caseSensitive (a b : string) : bool :=
  caseSensitive_loop (Nat.min (size a) (size b)) 0 a b.

(** [toLowerString] (lines 26-32). *)
Fixpoint toLowerString (str : string) : string :=
  match str with
  | EmptyString => EmptyString
  | String c rest => String (char_of_int (tolower (int_of_char c))) (toLowerString rest)
  end.

(** [isNoiseWord] (lines 35-37): [std::find] over the stored vector. *)
Fixpoint find_string (v : list string) (x : string) : bool :=
  match v with
  | [] => false
  | y :: v' => if String.eqb y x then true else find_string v' x
  end.

Definition isNoiseWord (word : string) (noiseWords : list string) : bool :=
  find_string noiseWords (toLowerString word).

(** ** Input streams (lines 115-150) *)

(** What the file system answers for a path: the open fails; the open
    succeeds and the bytes can be read; or the open succeeds and the first
    read fails (a directory, for instance), so that the stream never
    delivers a line. *)
Inductive file : Type :=
  | Unopenable
  | Readable (content : string)
  | Unreadable.

Definition file_system : Type := string -> file.

Definition nl : string := String "010"%char EmptyString.

Definition is_empty (s : string) : bool :=
  match s with
  | EmptyString => true
  | String _ _ => false
  end.

Definition push_char (s : string) (c : ascii) : string := s +:+ String c EmptyString.

(** [while (getline(stream, line))]: the lines of the content, cut at each
    newline; a last line without newline is delivered, and nothing is
    delivered once no character is left.  [cur] is the line being read. *)
Fixpoint getlines_from (cur rest : string) : list string :=
  match rest with
  | EmptyString => if is_empty cur then [] else [cur]
  | String c rest' =>
      if Ascii.eqb c "010"%char then cur :: getlines_from EmptyString rest'
      else getlines_from (push_char cur c) rest'
  end.

Definition getlines (content : string) : list string := getlines_from EmptyString content.

(** [while (ss >> word)]: whitespace is skipped, then a maximal run of
    other characters is extracted. *)
Fixpoint extract_from (cur rest : string) : list string :=
  match rest with
  | EmptyString => if is_empty cur then [] else [cur]
  | String c rest' =>
      if isspace (int_of_char c)
      then (if is_empty cur then extract_from EmptyString rest'
            else cur :: extract_from EmptyString rest')
      else extract_from (push_char cur c) rest'
  end.

Definition extract_words (line : string) : list string := extract_from EmptyString line.

(** The lines a stream delivers before [getline] fails. *)
Definition stream_lines (f : file) : list string :=
  match f with
  | Readable content => getlines content
  | Unopenable | Unreadable => []
  end.

(** [!stream] after construction. *)
Definition stream_failed (f : file) : bool :=
  match f with
  | Unopenable => true
  | Readable _ | Unreadable => false
  end.

(** ** The machine: shared vectors and the standard streams *)

Definition loc : Type := nat.

Record Machine : Type := mkMachine {
  store : gmap loc (list string);   (* the vector<string> objects behind shared_ptr *)
  next : loc;                       (* next free address *)
  cout : string;
  cerr : string;
  opened : list string              (* paths handed to an ifstream, oldest first *)
}.

Definition boot : Machine := mkMachine ∅ 0 "" "" [].

(** A computation either goes on with a value or ends the process
    ([exit(1)], or [return] from [main]) with a status. *)
Inductive Res (A : Type) : Type :=
  | Ret (a : A) (m : Machine)
  | Exit (status : Z) (m : Machine).
Arguments Ret {A} a m.
Arguments Exit {A} status m.

Definition M (A : Type) : Type := Machine -> Res A.

Definition ret {A} (a : A) : M A := fun m => Ret a m.

Definition bind {A B} (c : M A) (k : A -> M B) : M B :=
  fun m => match c m with
           | Ret a m' => k a m'
           | Exit st m' => Exit st m'
           end.

Notation "'do' x <- c ; k" := (bind c (fun x => k))
  (at level 10, x name, c at level 100, k at level 200).
Notation "'run' c ; k" := (bind c (fun _ => k))
  (at level 10, c at level 100, k at level 200).

Definition exit_ {A} (status : Z) : M A := fun m => Exit status m.

Definition set_store (f : gmap loc (list string) -> gmap loc (list string)) (m : Machine) : Machine :=
  mkMachine (f (store m)) (next m) (cout m) (cerr m) (opened m).

Definition write_cout (s : string) : M unit :=
  fun m => Ret tt (mkMachine (store m) (next m) (cout m +:+ s) (cerr m) (opened m)).

Definition write_cerr (s : string) : M unit :=
  fun m => Ret tt (mkMachine (store m) (next m) (cout m) (cerr m +:+ s) (opened m)).

(** [ifstream stream(path)]. *)
Definition open_file (fs : file_system) (path : string) : M file :=
  fun m => Ret (fs path) (mkMachine (store m) (next m) (cout m) (cerr m) (opened m ++ [path])).

(** [make_shared<vector<string>>()]. *)
Definition make_shared : M loc :=
  fun m => Ret (next m) (mkMachine (<[next m := []]> (store m)) (S (next m)) (cout m) (cerr m) (opened m)).

(** [p->push_back(str)]. *)
Definition push_back (p : loc) (str : string) : M unit :=
  fun m => Ret tt (set_store (alter (fun v => v ++ [str]) p) m).

(** [*p], read. *)
Definition deref (p : loc) : M (list string) :=
  fun m => Ret (default [] (store m !! p)) m.

(** ** The repositories (lines 40-107) *)

(** No pointer of a [LineRepo] is ever stored in another object, so its
    three vectors are kept by value. *)
Record LineRepo : Type := mkLineRepo {
  lines : list string;
  lines2d : list (list string);
  noiseWords : list string
}.

Definition LineRepo_new : LineRepo := mkLineRepo [] [] [].

Definition getLines (r : LineRepo) : list string := lines r.
Definition getLines2d (r : LineRepo) : list (list string) := lines2d r.

Definition LineRepo_add (vect : list string) (r : LineRepo) : LineRepo :=
  mkLineRepo (lines r) (lines2d r ++ [vect]) (noiseWords r).

Definition LineRepo_add_noise (w : string) (r : LineRepo) : LineRepo :=
  mkLineRepo (lines r) (lines2d r) (noiseWords r ++ [w]).

Record ShiftRepo : Type := mkShiftRepo { shifts : loc }.
Record SortedShiftRepo : Type := mkSortedShiftRepo { sortedShifts : loc }.

Definition getShifts (r : ShiftRepo) : loc := shifts r.
Definition getSortedShifts (r : SortedShiftRepo) : loc := sortedShifts r.

Definition ShiftRepo_new : M ShiftRepo := do p <- make_shared; ret (mkShiftRepo p).
Definition SortedShiftRepo_new : M SortedShiftRepo := do p <- make_shared; ret (mkSortedShiftRepo p).

Definition ShiftRepo_add (r : ShiftRepo) (str : string) : M unit := push_back (getShifts r) str.

(** [SortedShiftRepo::copy]: the pointer is assigned, the vector is not
    copied. *)
Definition SortedShiftRepo_copy (r : SortedShiftRepo) (sharedVect : loc) : SortedShiftRepo :=
  mkSortedShiftRepo sharedVect.

(** ** InputFilter (lines 110-152) *)

(** Lines 122-129: every token of every line of the noise-word stream is
    stored in lowercase. *)
Definition read_noiseWords (nwlines : list string) (lines : LineRepo) : LineRepo :=
  fold_left
    (fun r nwline =>
       fold_left (fun r' noiseWord => LineRepo_add_noise (toLowerString noiseWord) r')
                 (extract_words nwline) r)
    nwlines lines.

(** Lines 140-149: every line of the input stream is stored as its words. *)
Definition read_words (inlines : list string) (lines : LineRepo) : LineRepo :=
  fold_left (fun r line => LineRepo_add (extract_words line) r) inlines lines.

Definition InputFilter_process (fs : file_system) (inputFile noiseWordFile : string)
    (lines : LineRepo) : M LineRepo :=
  do nwfstream <- open_file fs noiseWordFile;
  if stream_failed nwfstream then
    run write_cerr ("Error opening noise words file" +:+ nl);
    exit_ 1%Z
  else
    let lines1 := read_noiseWords (stream_lines nwfstream) lines in
    do ifstream <- open_file fs inputFile;
    if stream_failed ifstream then
      run write_cerr ("Error opening input file" +:+ nl);
      exit_ 1%Z
    else
      ret (read_words (stream_lines ifstream) lines1).

(** ** CircularShiftFilter (lines 155-172) *)

(** [vect[0]]. *)
Definition front (vect : list string) : string :=
  match vect with
  | [] => ""
  | w :: _ => w
  end.

(** [rotate(vect.begin(), vect.begin() + 1, vect.end())]. *)
Definition rotate1 (vect : list string) : list string :=
  match vect with
  | [] => []
  | w :: rest => rest ++ [w]
  end.

(** Lines 162-165: [temp += w + " "] for every word of [vect]. *)
Definition join (vect : list string) : string :=
  fold_left (fun temp w => temp +:+ (w +:+ " ")) vect "".

(** The inner loop (lines 160-169) with [n] iterations left; the vector is
    rotated in place, so the loop returns it. *)
Fixpoint shift_loop (n : nat) (noise : list string) (shifts : ShiftRepo)
    (vect : list string) : M (list string) :=
  match n with
  | O => ret vect
  | S n' =>
      run (if negb (isNoiseWord (front vect) noise)
           then ShiftRepo_add shifts (join vect)
           else ret tt);
      shift_loop n' noise shifts (rotate1 vect)
  end.

(** The outer loop (line 158) over the stored lines, by reference. *)
Fixpoint shift_lines (noise : list string) (shifts : ShiftRepo)
    (vs : list (list string)) : M (list (list string)) :=
  match vs with
  | [] => ret []
  | vect :: rest =>
      do vect' <- shift_loop (length vect) noise shifts vect;
      do rest' <- shift_lines noise shifts rest;
      ret (vect' :: rest')
  end.

Definition CircularShiftFilter_process (lines : LineRepo) (shifts : ShiftRepo) : M LineRepo :=
  do l2d <- shift_lines (noiseWords lines) shifts (getLines2d lines);
  ret (mkLineRepo (getLines lines) l2d (noiseWords lines)).

(** ** AlphabetizerFilter (lines 176-182) *)

(** [sort(first, last, comp)] leaves the range ordered so that no element
    compares less than one before it. *)
Definition not_after (comp : string -> string -> bool) : relation string :=
  fun x y => comp y x = false.

#[global] Instance not_after_dec comp x y : Decision (not_after comp x y) :=
  bool_eq_dec (comp y x) false.

Definition sorted_by (comp : string -> string -> bool) : list string -> Prop :=
  StronglySorted (not_after comp).

Definition std_sort (comp : string -> string -> bool) (v : list string) : list string :=
  merge_sort (not_after comp) v.

(** [sort(p->begin(), p->end(), comp)]: the vector behind [p] is sorted in
    place. *)
Definition sort_at (p : loc) (comp : string -> string -> bool) : M unit :=
  fun m => Ret tt (set_store (alter (std_sort comp) p) m).

Definition AlphabetizerFilter_process (shifts : ShiftRepo) (sortedShifts : SortedShiftRepo)
    : M SortedShiftRepo :=
  let sortedShifts' := SortedShiftRepo_copy sortedShifts (getShifts shifts) in
  run sort_at (getSortedShifts sortedShifts') caseSensitive;
  ret sortedShifts'.

(** ** OutputFilter (lines 185-192) *)

Fixpoint print_lines (v : list string) : M unit :=
  match v with
  | [] => ret tt
  | line :: rest =>
      run write_cout nl;
      run write_cout line;
      run write_cout nl;
      print_lines rest
  end.

Definition OutputFilter_process (sortedShifts : SortedShiftRepo) : M unit :=
  do v <- deref (getSortedShifts sortedShifts);
  print_lines v.

(** ** Pipeline and main (lines 195-244) *)

Definition Pipeline_process (fs : file_system) (inputFile noiseWord : string)
    (lines : LineRepo) (shifts : ShiftRepo) (sortedShifts : SortedShiftRepo)
    : M (LineRepo * SortedShiftRepo) :=
  do lines1 <- InputFilter_process fs inputFile noiseWord lines;
  do lines2 <- CircularShiftFilter_process lines1 shifts;
  do sortedShifts' <- AlphabetizerFilter_process shifts sortedShifts;
  run OutputFilter_process sortedShifts';
  ret (lines2, sortedShifts').

Definition usage : string :=
  "Please input arguments in the correct format:" +:+ nl +:+ nl +:+
  "./program_name input_filename noise_words_filename".

(** [cout << duration.count()]: a signed decimal. *)
Definition decimal (z : Z) : string := NilZero.string_of_int (Z.to_int z).

(** [main]; [elapsed] is the number of microseconds the two readings of the
    steady clock turn out to be apart.  The value returned is the exit
    status. *)
Definition main (argc : Z) (argv : list string) (fs : file_system) (elapsed : Z) : M Z :=
  if (argc <? 3)%Z then
    run write_cerr ("Error: Not enough arguments in command line." +:+ nl +:+ usage +:+ nl);
    ret 1%Z
  else if (argc >? 3)%Z then
    run write_cerr ("Error: Too many arguments in command line." +:+ nl +:+ usage +:+ nl);
    ret 1%Z
  else
    let lines := LineRepo_new in
    do shifts <- ShiftRepo_new;
    do sortedShifts <- SortedShiftRepo_new;
    run Pipeline_process fs (nth 1 argv "") (nth 2 argv "") lines shifts sortedShifts;
    run write_cout (nl +:+ nl +:+ decimal elapsed +:+ " microseconds to complete." +:+ nl);
    ret 0%Z.

(** What the operating system sees when the process is over. *)
Definition status {A} (r : Res A) (of_value : A -> Z) : Z :=
  match r with
  | Ret a _ => of_value a
  | Exit st _ => st
  end.

Definition final {A} (r : Res A) : Machine :=
  match r with
  | Ret _ m => m
  | Exit _ m => m
  end.

Definition run_main (argc : Z) (argv : list string) (fs : file_system) (elapsed : Z) : Z * Machine :=
  let r := main argc argv fs elapsed boot in
  (status r (fun st => st), final r).

(** ** Sample inputs and the notions the statements use *)

Definition demo_fs : file_system := fun path =>
  if String.eqb path "doc.txt" then Readable ("the quick fox" +:+ nl)
  else if String.eqb path "noise.txt" then Readable ("The A" +:+ nl +:+ "of")
  else Unopenable.

(** The positions before [i] hold the same characters in [a] and [b]. *)
Definition agree_before (a b : string) (i : nat) : Prop :=
  forall j, j < i -> at_ a j = at_ b j.

(** The sort key of one character under [caseSensitive]: the folded value
    first, lowercase before uppercase second. *)
Definition ckey (c : ascii) : Z :=
  let z := int_of_char c in
  (2 * tolower z + (if isupper z then 1 else 0))%Z.

(** ** What the rotation stage is meant to produce *)

(** The cyclic rotation of [line] at offset [i]:
    [line[i], ..., line[n-1], line[0], ..., line[i-1]]. *)
Definition rotation (i : nat) (line : list string) : list string :=
  drop i line ++ take i line.

(** Each word followed by one space. *)
Fixpoint spaced (ws : list string) : string :=
  match ws with
  | [] => ""
  | w :: rest => w +:+ " " +:+ spaced rest
  end.

(** The rotations of one line by increasing offset, keeping offset [i] when
    the word at position [i] of the line is not a noise word. *)
Definition kept_rotations (noise : list string) (line : list string) : list string :=
  flat_map (fun i => if isNoiseWord (nth i line "") noise then [] else [spaced (rotation i line)])
           (seq 0 (length line)).

(** The start positions of [line] that hold a noise word. *)
Definition noise_positions (noise : list string) (line : list string) : list nat :=
  List.filter (fun i => isNoiseWord (nth i line "") noise) (seq 0 (length line)).

(** [l] pushed, element by element, onto the vector behind [p]. *)
Definition pushed (p : loc) (l : list string) (m : Machine) : Machine :=
  set_store (alter (fun v => v ++ l) p) m.

Definition ends_with_space (r : string) : Prop := exists s, r = s +:+ " ".

(** The machine [main] has built when the pipeline starts: the vector of
    [shifts] at address 0, the vector of [sortedShifts] at address 1. *)
Definition started : Machine := mkMachine (<[1 := []]> (<[0 := []]> ∅)) 2 "" "" [].

(** A file system where the document is a directory and the noise-word
    list an ordinary file. *)
Definition dir_fs : file_system := fun path =>
  if String.eqb path "docs" then Unreadable
  else if String.eqb path "noise.txt" then Readable "the"
  else Unopenable.

(** Neither string orders before the other. *)
Definition incomparable (a b : string) : Prop :=
  caseSensitive a b = false /\ caseSensitive b a = false.

(** ** Notions used for the reader, the printer and the whole run *)

(** Every character of [s] passes the test [p]. *)
Fixpoint all_chars (p : ascii -> bool) (s : string) : bool :=
  match s with
  | EmptyString => true
  | String c rest => p c && all_chars p rest
  end.

Definition is_space (c : ascii) : bool := isspace (int_of_char c).
Definition is_newline (c : ascii) : bool := Ascii.eqb c "010"%char.
Definition is_upper (c : ascii) : bool := isupper (int_of_char c).

(** A word as [operator>>] delivers it: not empty, no whitespace inside. *)
Definition is_token (w : string) : Prop :=
  w <> "" /\ all_chars (fun c => negb (is_space c)) w = true.

(** The text whose lines are [ls], each closed by a newline. *)
Fixpoint unlines (ls : list string) : string :=
  match ls with
  | [] => ""
  | l :: rest => l +:+ nl +:+ unlines rest
  end.

(** The two strings have the same letters, case apart. *)
Definition same_letters (a b : string) : Prop :=
  size a = size b /\
  forall i, i < size a ->
    tolower (int_of_char (at_ a i)) = tolower (int_of_char (at_ b i)).

(** What [OutputFilter] prints for an index: every string between two
    newlines. *)
Fixpoint rendered (v : list string) : string :=
  match v with
  | [] => ""
  | line :: rest => nl +:+ line +:+ nl +:+ rendered rest
  end.

(** The last line [main] prints. *)
Definition timing_line (elapsed : Z) : string :=
  nl +:+ nl +:+ decimal elapsed +:+ " microseconds to complete." +:+ nl.

(** The key sequence of a string, and the dictionary order on key
    sequences, a proper prefix first. *)
Fixpoint keys (s : string) : list Z :=
  match s with
  | EmptyString => []
  | String c rest => ckey c :: keys rest
  end.

Fixpoint lex_lt (k1 k2 : list Z) : bool :=
  match k1, k2 with
  | [], [] => false
  | [], _ :: _ => true
  | _ :: _, [] => false
  | x :: r1, y :: r2 =>
      if (x <? y)%Z then true else if (y <? x)%Z then false else lex_lt r1 r2
  end.

(** The noise words and the document that the lines of the two streams
    amount to, and the ordered index of both. *)
Definition noise_of (nwlines : list string) : list string :=
  map toLowerString (flat_map extract_words nwlines).

Definition document_of (inlines : list string) : list (list string) :=
  map extract_words inlines.

Definition index_of (nwlines inlines : list string) : list string :=
  std_sort caseSensitive (flat_map (kept_rotations (noise_of nwlines)) (document_of inlines)).

(** The file system in which every file that opens without delivering
    anything is an empty file. *)
Definition as_empty (fs : file_system) : file_system := fun path =>
  match fs path with
  | Unreadable => Readable ""
  | f => f
  end.

(** * Properties *)

Example run_demo :
  let r := run_main 3 ["kwic"; "doc.txt"; "noise.txt"] demo_fs 42 in
  r.1 = 0%Z /\
  cout r.2 = nl +:+ "fox the quick " +:+ nl +:+ nl +:+ "quick fox the " +:+ nl +:+
             nl +:+ nl +:+ "42 microseconds to complete." +:+ nl /\
  cerr r.2 = "".
Proof. vm_compute. auto. Qed.

Example getlines_samples :
  getlines ("a b" +:+ nl +:+ nl +:+ "c") = ["a b"; ""; "c"] /\
  getlines ("a b" +:+ nl) = ["a b"] /\
  getlines "" = [].
Proof. repeat split. Qed.

Example extract_words_samples :
  extract_words "  The   cat sat " = ["The"; "cat"; "sat"] /\
  extract_words "   " = [] /\
  toLowerString "The-Cat 42" = "the-cat 42".
Proof. repeat split. Qed.

Example caseSensitive_samples :
  caseSensitive "apple" "Apple" = true /\ caseSensitive "Apple" "apple" = false /\
  caseSensitive "apple" "Banana" = true /\ caseSensitive "Banana" "apple" = false /\
  caseSensitive "fox the quick " "quick fox the " = true.
Proof. repeat split. Qed.

(** Bytes above 127: 255 is -1 and orders before every other byte, the
    others fold to 128..254 and order after the ASCII characters. *)
Example caseSensitive_high_bytes :
  caseSensitive (String "255"%char "") "a" = true /\
  caseSensitive "a" (String "255"%char "") = false /\
  caseSensitive (String "128"%char "") "a" = false /\
  caseSensitive (String "255"%char "") (String "128"%char "") = true /\
  toLowerString (String "200"%char "A") = String "200"%char "a".
Proof. repeat split. Qed.

Example noise_filter_sample :
  kept_rotations ["the"] ["The"; "cat"; "sat"] = ["cat sat The "; "sat The cat "].
Proof. reflexivity. Qed.

(** ** Characters *)

Lemma int_of_char_range c : (-128 <= int_of_char c < 128)%Z.
Proof.
  unfold int_of_char. pose proof (nat_ascii_bounded c).
  destruct (Z.ltb_spec (Z.of_nat (nat_of_ascii c)) 128); lia.
Qed.

Lemma int_of_char_inj c d : int_of_char c = int_of_char d -> c = d.
Proof.
  unfold int_of_char. intros H.
  pose proof (nat_ascii_bounded c). pose proof (nat_ascii_bounded d).
  assert (nat_of_ascii c = nat_of_ascii d) as E.
  { destruct (Z.ltb_spec (Z.of_nat (nat_of_ascii c)) 128);
      destruct (Z.ltb_spec (Z.of_nat (nat_of_ascii d)) 128); lia. }
  rewrite <- (ascii_nat_embedding c), <- (ascii_nat_embedding d). by rewrite E.
Qed.

Ltac ctype_cases :=
  unfold ckey, tolower, isupper, islower in *;
  repeat match goal with
         | |- context [(?x <=? ?y)%Z] => destruct (Z.leb_spec x y); simpl in *
         | H : context [(?x <=? ?y)%Z] |- _ => destruct (Z.leb_spec x y); simpl in *
         | H : context [(?x <? ?y)%Z] |- _ => destruct (Z.ltb_spec x y); simpl in *
         | |- context [(?x <? ?y)%Z] => destruct (Z.ltb_spec x y); simpl in *
         | |- context [(?x =? ?y)%Z] => destruct (Z.eqb_spec x y); simpl in *
         end;
  try lia; try done.

(** Two different characters with one folded value are a lowercase letter
    and its uppercase form. *)
Lemma same_fold_cases (x y : Z) :
  (-128 <= x < 128)%Z -> (-128 <= y < 128)%Z ->
  tolower x = tolower y -> x <> y ->
  islower x = isupper y /\ islower y = isupper x /\ islower x = negb (islower y).
Proof. intros Hx Hy Hf Hne. repeat split; ctype_cases. Qed.

Lemma ckey_fold_differs x y :
  tolower (int_of_char x) <> tolower (int_of_char y) ->
  (tolower (int_of_char x) <? tolower (int_of_char y))%Z = (ckey x <? ckey y)%Z.
Proof. intros Hf. ctype_cases. Qed.

Lemma ckey_fold_same x y :
  tolower (int_of_char x) = tolower (int_of_char y) -> x <> y ->
  islower (int_of_char x) && isupper (int_of_char y) = (ckey x <? ckey y)%Z.
Proof.
  intros Hf Hne.
  assert (int_of_char x <> int_of_char y) by (intros E; by apply int_of_char_inj in E).
  pose proof (int_of_char_range x). pose proof (int_of_char_range y).
  ctype_cases.
Qed.

Lemma ckey_inj x y : ckey x = ckey y -> x = y.
Proof.
  intros H. apply int_of_char_inj.
  pose proof (int_of_char_range x). pose proof (int_of_char_range y).
  ctype_cases.
Qed.

(** ** The comparator, one character at a time *)

Lemma at_cons x a i : at_ (String x a) (S i) = at_ a i.
Proof. reflexivity. Qed.

Lemma caseSensitive_loop_shift n i x a y b :
  caseSensitive_loop n (S i) (String x a) (String y b) = caseSensitive_loop n i a b.
Proof.
  revert i. induction n as [|n IH]; intros i; [reflexivity|].
  cbn [caseSensitive_loop]. rewrite !at_cons, IH. reflexivity.
Qed.

Lemma caseSensitive_nil_l b : caseSensitive "" b = negb (is_empty b).
Proof. by destruct b. Qed.

Lemma caseSensitive_nil_r a : caseSensitive a "" = false.
Proof.
  unfold caseSensitive. replace (Nat.min (size a) (size "")) with 0 by (simpl; lia).
  by destruct a.
Qed.

Lemma caseSensitive_cons x a y b :
  caseSensitive (String x a) (String y b) =
    let ca := int_of_char x in
    let cb := int_of_char y in
    if negb (tolower ca =? tolower cb)%Z then (tolower ca <? tolower cb)%Z
    else if negb (ca =? cb)%Z then islower ca && isupper cb
    else caseSensitive a b.
Proof.
  unfold caseSensitive. cbn [size String.length Nat.min caseSensitive_loop].
  rewrite caseSensitive_loop_shift. reflexivity.
Qed.

Lemma caseSensitive_key x a y b :
  caseSensitive (String x a) (String y b) =
    if (ckey x <? ckey y)%Z then true
    else if (ckey y <? ckey x)%Z then false
    else caseSensitive a b.
Proof.
  rewrite caseSensitive_cons. cbv zeta.
  destruct (Z.eqb_spec (tolower (int_of_char x)) (tolower (int_of_char y))) as [Hf|Hf]; cbn [negb].
  - destruct (Z.eqb_spec (int_of_char x) (int_of_char y)) as [He|He]; cbn [negb].
    + apply int_of_char_inj in He. subst y. rewrite Z.ltb_irrefl. reflexivity.
    + assert (x <> y) by congruence.
      rewrite (ckey_fold_same x y) by done.
      destruct (Z.ltb_spec (ckey x) (ckey y)) as [Hlt|Hge]; [done|].
      destruct (Z.ltb_spec (ckey y) (ckey x)) as [Hlt'|Hge']; [done|].
      exfalso. apply H, ckey_inj. lia.
  - rewrite (ckey_fold_differs x y) by done.
    destruct (Z.ltb_spec (ckey x) (ckey y)) as [Hlt|Hge]; [done|].
    destruct (Z.ltb_spec (ckey y) (ckey x)) as [Hlt'|Hge']; [done|].
    exfalso. apply Hf. f_equal. f_equal. apply ckey_inj. lia.
Qed.

Ltac key_cases :=
  repeat match goal with
         | H : context [(?x <? ?y)%Z] |- _ => destruct (Z.ltb_spec x y); try discriminate H
         | |- context [(?x <? ?y)%Z] => destruct (Z.ltb_spec x y)
         end;
  try lia; try done.

Lemma caseSensitive_irrefl a : caseSensitive a a = false.
Proof.
  induction a as [|x a IH]; [done|].
  rewrite caseSensitive_key, Z.ltb_irrefl. exact IH.
Qed.

Lemma caseSensitive_asym a b : caseSensitive a b = true -> caseSensitive b a = false.
Proof.
  revert b. induction a as [|x a IH]; intros [|y b].
  - done.
  - intros _. apply caseSensitive_nil_r.
  - by rewrite caseSensitive_nil_r.
  - rewrite !caseSensitive_key. intros H. key_cases. by apply IH.
Qed.

Lemma caseSensitive_trans a b c :
  caseSensitive a b = true -> caseSensitive b c = true -> caseSensitive a c = true.
Proof.
  revert b c. induction a as [|x a IH]; intros [|y b] [|z c]; try done;
    try (by rewrite caseSensitive_nil_r).
  rewrite !caseSensitive_key. intros H1 H2. key_cases. by apply (IH b).
Qed.

(** Two strings neither of which orders before the other are one string:
    the comparator distinguishes every pair of different strings. *)
Lemma caseSensitive_connected a b :
  caseSensitive a b = false -> caseSensitive b a = false -> a = b.
Proof.
  revert b. induction a as [|x a IH]; intros [|y b]; try done.
  rewrite !caseSensitive_key. intros H1 H2. key_cases.
  f_equal; [apply ckey_inj; lia | by apply IH].
Qed.

Lemma caseSensitive_incomparable_trans a b c :
  caseSensitive a b = false -> caseSensitive b a = false ->
  caseSensitive b c = false -> caseSensitive c b = false ->
  caseSensitive a c = false /\ caseSensitive c a = false.
Proof.
  intros H1 H2 H3 H4.
  rewrite (caseSensitive_connected a b H1 H2), (caseSensitive_connected b c H3 H4).
  split; apply caseSensitive_irrefl.
Qed.

(** ** The order [std::sort] works with *)

#[global] Instance not_after_total : Total (not_after caseSensitive).
Proof.
  intros x y. unfold not_after.
  destruct (caseSensitive y x) eqn:E; [right; by apply caseSensitive_asym | by left].
Qed.

#[global] Instance not_after_trans : Transitive (not_after caseSensitive).
Proof.
  intros x y z. unfold not_after. intros Hyx Hzy.
  destruct (caseSensitive z x) eqn:Hzx; [|done].
  destruct (caseSensitive x y) eqn:Hxy.
  - by rewrite (caseSensitive_trans z x y Hzx Hxy) in Hzy.
  - rewrite (caseSensitive_connected x y Hxy Hyx) in Hzx. congruence.
Qed.

#[global] Instance not_after_antisymm : AntiSymm (=) (not_after caseSensitive).
Proof. intros x y Hyx Hxy. by apply caseSensitive_connected. Qed.

Lemma std_sort_perm v : std_sort caseSensitive v ≡ₚ v.
Proof. apply merge_sort_Permutation. Qed.

Lemma std_sort_sorted v : sorted_by caseSensitive (std_sort caseSensitive v).
Proof. apply StronglySorted_merge_sort; apply _. Qed.

(** Whatever algorithm [std::sort] runs, its contract fixes the result. *)
Lemma std_sort_unique v v' :
  v' ≡ₚ v -> sorted_by caseSensitive v' -> v' = std_sort caseSensitive v.
Proof.
  intros Hp Hs. apply (StronglySorted_unique (not_after caseSensitive)).
  - exact Hs.
  - apply std_sort_sorted.
  - by rewrite Hp, std_sort_perm.
Qed.

Lemma std_sort_sorted_id v : sorted_by caseSensitive v -> std_sort caseSensitive v = v.
Proof. intros Hs. symmetry. by apply std_sort_unique. Qed.

(** ** The comparator, by positions *)

Lemma agree_before_cons x a y b i :
  agree_before (String x a) (String y b) (S i) -> x = y /\ agree_before a b i.
Proof.
  intros H. split.
  - apply (H 0). lia.
  - intros j Hj. apply (H (S j)). lia.
Qed.

(** The first position where the strings differ decides. *)
Lemma caseSensitive_decided a b i :
  i < Nat.min (size a) (size b) -> agree_before a b i -> at_ a i <> at_ b i ->
  caseSensitive a b =
    let ca := int_of_char (at_ a i) in
    let cb := int_of_char (at_ b i) in
    if negb (tolower ca =? tolower cb)%Z then (tolower ca <? tolower cb)%Z
    else islower ca && isupper cb.
Proof.
  revert a b. induction i as [|i IH]; intros [|x a] [|y b]; unfold size in *;
    cbn [String.length]; intros Hi; try lia.
  - intros _ Hd. rewrite caseSensitive_cons. cbn [at_ String.get] in *. cbv zeta.
    destruct (negb (tolower (int_of_char x) =? tolower (int_of_char y))%Z); [done|].
    destruct (Z.eqb_spec (int_of_char x) (int_of_char y)) as [E|E]; [|done].
    by apply int_of_char_inj in E.
  - intros Hag Hd. apply agree_before_cons in Hag as [-> Hag].
    rewrite caseSensitive_cons, !at_cons in *. cbv zeta.
    rewrite !Z.eqb_refl. cbn [negb]. apply IH; [lia|done..].
Qed.

(** Without such a position the sizes decide. *)
Lemma caseSensitive_undecided a b :
  agree_before a b (Nat.min (size a) (size b)) -> caseSensitive a b = (size a <? size b).
Proof.
  revert b. induction a as [|x a IH]; intros [|y b]; cbn [size String.length Nat.min].
  - done.
  - done.
  - intros _. by rewrite caseSensitive_nil_r.
  - intros Hag. apply agree_before_cons in Hag as [-> Hag].
    rewrite caseSensitive_cons. cbv zeta. rewrite !Z.eqb_refl. cbn [negb].
    by rewrite IH.
Qed.

(** ** The rotation loop *)

Lemma string_app_cons x (a b : string) : String x a +:+ b = String x (a +:+ b).
Proof. reflexivity. Qed.

Lemma string_app_assoc (a b c : string) : (a +:+ b) +:+ c = a +:+ (b +:+ c).
Proof. induction a as [|x a IH]; [done|]. by rewrite !string_app_cons, IH. Qed.

Lemma string_app_nil_r (a : string) : a +:+ "" = a.
Proof. induction a as [|x a IH]; [done|]. by rewrite string_app_cons, IH. Qed.

Lemma join_from temp vect :
  fold_left (fun temp w => temp +:+ (w +:+ " ")) vect temp = temp +:+ spaced vect.
Proof.
  revert temp. induction vect as [|w vect IH]; intros temp; cbn [fold_left spaced].
  - by rewrite string_app_nil_r.
  - by rewrite IH, !string_app_assoc.
Qed.

Lemma join_spaced vect : join vect = spaced vect.
Proof. unfold join. by rewrite join_from. Qed.

Lemma rotation_0 line : rotation 0 line = line.
Proof. unfold rotation. cbn. by rewrite app_nil_r. Qed.

Lemma rotation_full line : rotation (length line) line = line.
Proof. unfold rotation. by rewrite drop_all, take_ge by lia. Qed.

Lemma front_rotation i line : i < length line -> front (rotation i line) = nth i line "".
Proof.
  unfold rotation. revert i. induction line as [|w line IH]; intros i Hi; cbn in Hi; [lia|].
  destruct i as [|i]; [done|]. cbn. destruct (drop i line) eqn:E.
  - apply (f_equal length) in E. rewrite length_drop in E. cbn in E. lia.
  - rewrite <- (IH i) by lia. by rewrite E.
Qed.

Lemma rotate1_rotation i line : i < length line -> rotate1 (rotation i line) = rotation (S i) line.
Proof.
  intros Hi. unfold rotation.
  destruct (lookup_lt_is_Some_2 line i Hi) as [x Hx].
  rewrite (drop_S line x i Hx), (take_S_r line i x Hx). cbn.
  by rewrite <- app_assoc.
Qed.

(** ** Pushing onto a shared vector *)

Lemma pushed_nil p m : pushed p [] m = m.
Proof.
  destruct m as [st nx co ce op]. unfold pushed, set_store. cbn. f_equal.
  apply alter_id. intros v _. apply app_nil_r.
Qed.

Lemma pushed_app p l1 l2 m : pushed p l2 (pushed p l1 m) = pushed p (l1 ++ l2) m.
Proof.
  destruct m as [st nx co ce op]. unfold pushed, set_store. cbn. f_equal.
  rewrite alter_alter_eq. apply alter_ext. intros v _. cbn. by rewrite app_assoc.
Qed.

Lemma store_pushed p l m q :
  store (pushed p l m) !! q =
    if decide (p = q) then (fun v => v ++ l) <$> store m !! p else store m !! q.
Proof. unfold pushed, set_store. cbn. apply lookup_alter. Qed.

Lemma flat_map_agree {A B} (f g : A -> list B) (l : list A) :
  (forall a, In a l -> f a = g a) -> flat_map f l = flat_map g l.
Proof.
  induction l as [|a l IH]; intros H; [done|].
  cbn. rewrite (H a) by (by left). rewrite IH; [done|]. intros b Hb. apply H. by right.
Qed.

Lemma shift_loop_from noise shifts line n k m :
  k + n <= length line ->
  shift_loop n noise shifts (rotation k line) m =
    Ret (rotation (k + n) line)
        (pushed (getShifts shifts)
           (flat_map (fun i => if isNoiseWord (nth i line "") noise then []
                               else [spaced (rotation i line)]) (seq k n)) m).
Proof.
  revert k m. induction n as [|n IH]; intros k m Hk.
  - cbn. by rewrite pushed_nil, Nat.add_0_r.
  - cbn [shift_loop seq flat_map]. unfold bind at 1.
    rewrite front_rotation, rotate1_rotation by lia.
    destruct (isNoiseWord (nth k line "") noise); cbn [negb].
    + cbn [ret app]. rewrite IH by lia. by rewrite Nat.add_succ_r.
    + unfold ShiftRepo_add, push_back. fold (pushed (getShifts shifts) [join (rotation k line)] m).
      rewrite IH by lia. by rewrite pushed_app, join_spaced, Nat.add_succ_r.
Qed.

Lemma shift_loop_line noise shifts line m :
  shift_loop (length line) noise shifts line m =
    Ret line (pushed (getShifts shifts) (kept_rotations noise line) m).
Proof.
  rewrite <- (rotation_0 line) at 2. rewrite shift_loop_from by (cbn; lia).
  cbn [Nat.add]. by rewrite rotation_full.
Qed.

Lemma shift_lines_all noise shifts vs m :
  shift_lines noise shifts vs m =
    Ret vs (pushed (getShifts shifts) (flat_map (kept_rotations noise) vs) m).
Proof.
  revert m. induction vs as [|vect vs IH]; intros m.
  - cbn. by rewrite pushed_nil.
  - cbn [shift_lines flat_map]. unfold bind. rewrite shift_loop_line, IH.
    by rewrite pushed_app.
Qed.

Lemma CircularShiftFilter_process_all lines shifts m :
  CircularShiftFilter_process lines shifts m =
    Ret lines (pushed (getShifts shifts)
                 (flat_map (kept_rotations (noiseWords lines)) (getLines2d lines)) m).
Proof.
  unfold CircularShiftFilter_process, bind. rewrite shift_lines_all.
  by destruct lines.
Qed.

Lemma kept_rotations_count noise line :
  length (kept_rotations noise line) + length (noise_positions noise line) = length line.
Proof.
  unfold kept_rotations, noise_positions.
  assert (forall l : list nat,
    length (flat_map (fun i => if isNoiseWord (nth i line "") noise then []
                               else [spaced (rotation i line)]) l)
    + length (List.filter (fun i => isNoiseWord (nth i line "") noise) l) = length l) as Hl.
  { induction l as [|i l IH]; [done|].
    cbn [flat_map List.filter]. destruct (isNoiseWord (nth i line "") noise); cbn; lia. }
  by rewrite Hl, length_seq.
Qed.

Lemma In_kept_rotations noise line r :
  In r (kept_rotations noise line) <->
  exists i, i < length line /\ isNoiseWord (nth i line "") noise = false /\
            r = spaced (rotation i line).
Proof.
  unfold kept_rotations. rewrite in_flat_map. split.
  - intros (i & Hi & Hr). apply in_seq in Hi. exists i.
    destruct (isNoiseWord (nth i line "") noise); [done|].
    destruct Hr as [<-|[]]. split; [lia|done].
  - intros (i & Hi & Hn & ->). exists i. split; [apply in_seq; lia|].
    rewrite Hn. by left.
Qed.

(** ** The noise-word vector *)

Lemma find_string_In v x : find_string v x = true <-> In x v.
Proof.
  induction v as [|y v IH]; cbn; [split; [done|tauto]|].
  destruct (String.eqb_spec y x) as [->|Hne].
  - split; [by left|done].
  - rewrite IH. split; [by right|]. by intros [?|?].
Qed.

Lemma noiseWords_add_tokens ws r :
  noiseWords (fold_left (fun r' noiseWord => LineRepo_add_noise (toLowerString noiseWord) r') ws r)
  = noiseWords r ++ map toLowerString ws.
Proof.
  revert r. induction ws as [|w ws IH]; intros r; cbn [fold_left map].
  - by rewrite app_nil_r.
  - rewrite IH. cbn. by rewrite <- app_assoc.
Qed.

Lemma noiseWords_read nwlines r :
  noiseWords (read_noiseWords nwlines r)
  = noiseWords r ++ map toLowerString (flat_map extract_words nwlines).
Proof.
  unfold read_noiseWords. revert r.
  induction nwlines as [|l ls IH]; intros r; cbn [fold_left flat_map].
  - by rewrite app_nil_r.
  - rewrite IH, noiseWords_add_tokens, map_app. by rewrite <- app_assoc.
Qed.

(** ** The sort stage *)

Lemma AlphabetizerFilter_process_run shifts sortedShifts m :
  AlphabetizerFilter_process shifts sortedShifts m =
    Ret (mkSortedShiftRepo (getShifts shifts))
        (set_store (alter (std_sort caseSensitive) (getShifts shifts)) m).
Proof. reflexivity. Qed.

Lemma std_sort_idem v :
  std_sort caseSensitive (std_sort caseSensitive v) = std_sort caseSensitive v.
Proof. apply std_sort_sorted_id, std_sort_sorted. Qed.

(** ** Rotations end with a space *)

Lemma spaced_ends_with_space ws : ws <> [] -> ends_with_space (spaced ws).
Proof.
  induction ws as [|w ws IH]; [done|]. intros _.
  destruct ws as [|w' ws].
  - exists w. cbn [spaced]. by rewrite string_app_nil_r.
  - destruct IH as [s Hs]; [done|]. exists (w +:+ " " +:+ s).
    change (spaced (w :: w' :: ws)) with (w +:+ " " +:+ spaced (w' :: ws)).
    by rewrite Hs, !string_app_assoc.
Qed.

Lemma length_rotation i line : length (rotation i line) = length line.
Proof.
  unfold rotation. rewrite length_app, length_drop, length_take. lia.
Qed.

Lemma kept_rotations_end_with_space noise line r :
  In r (kept_rotations noise line) -> ends_with_space r.
Proof.
  intros (i & Hi & _ & ->)%In_kept_rotations. apply spaced_ends_with_space.
  intros E. apply (f_equal length) in E. rewrite length_rotation in E. cbn in E. lia.
Qed.

(** ** The input stage and [main] *)

Lemma InputFilter_noise_unopenable fs inputFile noiseWordFile lines m :
  fs noiseWordFile = Unopenable ->
  InputFilter_process fs inputFile noiseWordFile lines m =
    Exit 1 (mkMachine (store m) (next m) (cout m)
              (cerr m +:+ "Error opening noise words file" +:+ nl)
              (opened m ++ [noiseWordFile])).
Proof.
  intros H. unfold InputFilter_process, bind, open_file. rewrite H. reflexivity.
Qed.

Lemma InputFilter_input_unopenable fs inputFile noiseWordFile lines m :
  fs noiseWordFile <> Unopenable -> fs inputFile = Unopenable ->
  InputFilter_process fs inputFile noiseWordFile lines m =
    Exit 1 (mkMachine (store m) (next m) (cout m)
              (cerr m +:+ "Error opening input file" +:+ nl)
              (opened m ++ [noiseWordFile; inputFile])).
Proof.
  intros Hn Hi. unfold InputFilter_process, bind, open_file.
  destruct (fs noiseWordFile) eqn:E; [done| |]; cbn; rewrite Hi; cbn; by rewrite <- app_assoc.
Qed.

Lemma InputFilter_both_open fs inputFile noiseWordFile lines m :
  fs noiseWordFile <> Unopenable -> fs inputFile <> Unopenable ->
  InputFilter_process fs inputFile noiseWordFile lines m =
    Ret (read_words (stream_lines (fs inputFile))
           (read_noiseWords (stream_lines (fs noiseWordFile)) lines))
        (mkMachine (store m) (next m) (cout m) (cerr m)
              (opened m ++ [noiseWordFile; inputFile])).
Proof.
  intros Hn Hi. unfold InputFilter_process, bind, open_file.
  destruct (fs noiseWordFile) eqn:E; [done| |]; cbn;
  destruct (fs inputFile) eqn:E'; try done; cbn; by rewrite <- app_assoc.
Qed.

Lemma main_wrong_count argc argv fs elapsed :
  argc <> 3%Z ->
  exists reason,
    main argc argv fs elapsed boot =
      Ret 1%Z (mkMachine ∅ 0 "" (reason +:+ nl +:+ usage +:+ nl) []).
Proof.
  intros Hc. unfold main.
  destruct (Z.ltb_spec argc 3); [by eexists|].
  destruct (Z.gtb_spec argc 3); [by eexists|lia].
Qed.

Lemma main_right_count argv fs elapsed :
  main 3 argv fs elapsed boot =
    (run Pipeline_process fs (nth 1 argv "") (nth 2 argv "") LineRepo_new
           (mkShiftRepo 0) (mkSortedShiftRepo 1);
     run write_cout (nl +:+ nl +:+ decimal elapsed +:+ " microseconds to complete." +:+ nl);
     ret 0%Z) started.
Proof. reflexivity. Qed.

Lemma main_input_stage_exit argv fs elapsed m' :
  InputFilter_process fs (nth 1 argv "") (nth 2 argv "") LineRepo_new started = Exit 1 m' ->
  main 3 argv fs elapsed boot = Exit 1 m'.
Proof.
  intros H. rewrite main_right_count. unfold bind at 1. unfold Pipeline_process, bind at 1.
  by rewrite H.
Qed.

(** The printer only appends to the output stream. *)
Lemma print_lines_run v m :
  exists text, print_lines v m =
    Ret tt (mkMachine (store m) (next m) (cout m +:+ text) (cerr m) (opened m)).
Proof.
  revert m. induction v as [|line v IH]; intros m.
  - exists "". cbn. rewrite string_app_nil_r. by destruct m.
  - cbn [print_lines]. unfold bind, write_cout. cbn.
    destruct (IH (mkMachine (store m) (next m) (((cout m +:+ nl) +:+ line) +:+ nl)
                    (cerr m) (opened m))) as [text ->].
    exists (nl +:+ line +:+ nl +:+ text). cbn. by rewrite !string_app_assoc.
Qed.

(** Once both files have opened nothing can end the run early: it returns
    0 and the error stream stays empty, whatever the reads deliver. *)
Lemma main_both_open_run argv fs elapsed :
  fs (nth 2 argv "") <> Unopenable -> fs (nth 1 argv "") <> Unopenable ->
  exists m', main 3 argv fs elapsed boot = Ret 0%Z m' /\ cerr m' = "".
Proof.
  intros Hn Hi. rewrite main_right_count.
  unfold Pipeline_process, OutputFilter_process, bind.
  rewrite (InputFilter_both_open _ _ _ _ _ Hn Hi). cbv beta iota.
  rewrite CircularShiftFilter_process_all. cbv beta iota.
  rewrite AlphabetizerFilter_process_run. cbv beta iota.
  unfold deref.
  match goal with |- context [print_lines ?v ?m] =>
    destruct (print_lines_run v m) as [text ->] end.
  cbv beta iota. unfold ret, write_cout. by eexists.
Qed.

Lemma main_both_open argv fs elapsed :
  fs (nth 2 argv "") <> Unopenable -> fs (nth 1 argv "") <> Unopenable ->
  (run_main 3 argv fs elapsed).1 = 0%Z /\ cerr (run_main 3 argv fs elapsed).2 = "".
Proof.
  intros Hn Hi. unfold run_main.
  by destruct (main_both_open_run argv fs elapsed Hn Hi) as (m' & -> & Hc).
Qed.

(** * Main results *)

(** C1.  [caseSensitive a b] goes through the positions below
    [min(a.size(), b.size())] in order.  At the first position where the two
    characters differ: if their folded values differ, [a] orders before [b]
    exactly when its folded value is the smaller one; if the folded values
    are equal, one of the two characters is a lowercase letter and the other
    its uppercase form, and [a] orders before [b] exactly when [a] holds the
    lowercase one.  If no position below the minimum differs, [a] orders
    before [b] exactly when it is the shorter one. *)
Theorem caseSensitive_position_rule (a b : string) :
  (forall i,
     i < Nat.min (size a) (size b) -> agree_before a b i ->
     tolower (int_of_char (at_ a i)) <> tolower (int_of_char (at_ b i)) ->
     caseSensitive a b =
       (tolower (int_of_char (at_ a i)) <? tolower (int_of_char (at_ b i)))%Z) /\
  (forall i,
     i < Nat.min (size a) (size b) -> agree_before a b i ->
     tolower (int_of_char (at_ a i)) = tolower (int_of_char (at_ b i)) ->
     at_ a i <> at_ b i ->
     caseSensitive a b = islower (int_of_char (at_ a i)) /\
     islower (int_of_char (at_ a i)) = isupper (int_of_char (at_ b i)) /\
     islower (int_of_char (at_ b i)) = isupper (int_of_char (at_ a i)) /\
     islower (int_of_char (at_ a i)) = negb (islower (int_of_char (at_ b i)))) /\
  (agree_before a b (Nat.min (size a) (size b)) ->
     caseSensitive a b = (size a <? size b)).
Proof.
  split; [|split].
  - intros i Hi Hag Hf.
    assert (at_ a i <> at_ b i) as Hd by (intros E; apply Hf; by rewrite E).
    rewrite (caseSensitive_decided a b i Hi Hag Hd). cbv zeta.
    destruct (Z.eqb_spec (tolower (int_of_char (at_ a i))) (tolower (int_of_char (at_ b i))));
      [done|reflexivity].
  - intros i Hi Hag Hf Hd.
    assert (int_of_char (at_ a i) <> int_of_char (at_ b i)) as Hne
      by (intros E; by apply int_of_char_inj in E).
    destruct (same_fold_cases _ _ (int_of_char_range _) (int_of_char_range _) Hf Hne)
      as (H1 & H2 & H3).
    rewrite (caseSensitive_decided a b i Hi Hag Hd). cbv zeta.
    rewrite Hf, Z.eqb_refl. cbn [negb]. rewrite <- H1.
    repeat split; try done. by destruct (islower (int_of_char (at_ a i))).
  - apply caseSensitive_undecided.
Qed.

Lemma caseSensitive_position_rule_witness :
  caseSensitive "Banana" "apple" = false /\
  caseSensitive "ab" "Aa" = true /\
  caseSensitive "app" "apple" = true.
Proof.
  split; [|split].
  - destruct (caseSensitive_position_rule "Banana" "apple") as (H & _ & _).
    assert (0 < Nat.min (size "Banana") (size "apple")) as Hi by (cbn; lia).
    assert (agree_before "Banana" "apple" 0) as Hag by (intros j Hj; lia).
    rewrite (H 0 Hi Hag); [reflexivity|].
    intros E. vm_compute in E. discriminate E.
  - destruct (caseSensitive_position_rule "ab" "Aa") as (_ & H & _).
    assert (0 < Nat.min (size "ab") (size "Aa")) as Hi by (cbn; lia).
    assert (agree_before "ab" "Aa" 0) as Hag by (intros j Hj; lia).
    assert (at_ "ab" 0 <> at_ "Aa" 0) as Hd by (intros E; vm_compute in E; discriminate E).
    destruct (H 0 Hi Hag eq_refl Hd) as (E & _). rewrite E. reflexivity.
  - destruct (caseSensitive_position_rule "app" "apple") as (_ & _ & H).
    rewrite H; [reflexivity|].
    intros j Hj. cbn in Hj. do 3 (destruct j as [|j]; [reflexivity|]). lia.
Defined.

(** C6.  [caseSensitive] is a strict weak ordering: irreflexive, asymmetric,
    transitive, and with a transitive incomparability (indeed two
    incomparable strings are equal).  Sorting a vector under it therefore
    always yields a result: a permutation of the vector in which no string
    orders before an earlier one, and the sort stage never ends the run. *)
Theorem caseSensitive_strict_weak_order :
  (forall a, caseSensitive a a = false) /\
  (forall a b, caseSensitive a b = true -> caseSensitive b a = false) /\
  (forall a b c, caseSensitive a b = true -> caseSensitive b c = true ->
                 caseSensitive a c = true) /\
  (forall a b c, incomparable a b -> incomparable b c -> incomparable a c) /\
  (forall a b, incomparable a b -> a = b) /\
  (forall v, std_sort caseSensitive v ≡ₚ v /\ sorted_by caseSensitive (std_sort caseSensitive v)) /\
  (forall shifts sortedShifts m,
     exists r m', AlphabetizerFilter_process shifts sortedShifts m = Ret r m').
Proof.
  split; [exact caseSensitive_irrefl|].
  split; [exact caseSensitive_asym|].
  split; [exact caseSensitive_trans|].
  split; [|split; [|split]].
  - intros a b c [H1 H2] [H3 H4]. by apply (caseSensitive_incomparable_trans a b c).
  - intros a b [H1 H2]. by apply caseSensitive_connected.
  - intros v. split; [apply std_sort_perm | apply std_sort_sorted].
  - intros shifts sortedShifts m. rewrite AlphabetizerFilter_process_run. by eexists _, _.
Qed.

Lemma caseSensitive_strict_weak_order_witness :
  caseSensitive "apple" "Apple" = true /\ caseSensitive "Apple" "Banana" = true /\
  caseSensitive "apple" "Banana" = true /\ caseSensitive "Banana" "apple" = false.
Proof.
  destruct caseSensitive_strict_weak_order as (_ & Hasym & Htrans & _).
  assert (caseSensitive "apple" "Apple" = true) as H1 by reflexivity.
  assert (caseSensitive "Apple" "Banana" = true) as H2 by reflexivity.
  pose proof (Htrans _ _ _ H1 H2) as H3.
  exact (conj H1 (conj H2 (conj H3 (Hasym _ _ H3)))).
Defined.

(** C7.  Ordering is idempotent: a vector already ordered under
    [caseSensitive] is left as it is by the sort, sorting twice gives what
    sorting once gives, and running the sort stage a second time leaves the
    machine as the first run left it. *)
Theorem ordering_idempotent (v : list string) :
  (sorted_by caseSensitive v -> std_sort caseSensitive v = v) /\
  std_sort caseSensitive (std_sort caseSensitive v) = std_sort caseSensitive v /\
  (forall shifts sortedShifts m,
     (do sortedShifts' <- AlphabetizerFilter_process shifts sortedShifts;
      AlphabetizerFilter_process shifts sortedShifts') m
     = AlphabetizerFilter_process shifts sortedShifts m).
Proof.
  split; [apply std_sort_sorted_id|]. split; [apply std_sort_idem|].
  intros shifts sortedShifts m. unfold bind.
  rewrite !AlphabetizerFilter_process_run. f_equal.
  destruct m as [st nx co ce op]. unfold set_store. cbn. f_equal.
  rewrite alter_alter_eq. apply alter_ext. intros x _. cbn. apply std_sort_idem.
Qed.

Lemma ordering_idempotent_witness :
  std_sort caseSensitive ["fox the quick "; "quick fox the "] = ["fox the quick "; "quick fox the "].
Proof.
  apply (proj1 (ordering_idempotent ["fox the quick "; "quick fox the "])).
  repeat constructor.
Defined.




(** C8.  When [argc] is not 3 (the program name and two arguments), [main]
    writes a message followed by the usage text to the error stream and
    returns 1; nothing is written to the output stream, no file is opened
    and no vector is allocated. *)
Theorem main_usage_error (argc : Z) (argv : list string) (fs : file_system) (elapsed : Z) :
  argc <> 3%Z ->
  (run_main argc argv fs elapsed).1 = 1%Z /\
  (exists reason, cerr (run_main argc argv fs elapsed).2 = reason +:+ nl +:+ usage +:+ nl) /\
  cout (run_main argc argv fs elapsed).2 = "" /\
  opened (run_main argc argv fs elapsed).2 = [] /\
  store (run_main argc argv fs elapsed).2 = ∅.
Proof.
  intros Hc. unfold run_main.
  destruct (main_wrong_count argc argv fs elapsed Hc) as [reason ->]. cbn.
  repeat split. by exists reason.
Qed.

Lemma main_usage_error_witness :
  (run_main 2 ["kwic"; "doc.txt"] demo_fs 42).1 = 1%Z /\
  cout (run_main 2 ["kwic"; "doc.txt"] demo_fs 42).2 = "".
Proof.
  destruct (main_usage_error 2 ["kwic"; "doc.txt"] demo_fs 42 ltac:(discriminate))
    as (H1 & _ & H2 & _).
  exact (conj H1 H2).
Defined.

(** C9, as stated, fails: when the input document opens but cannot be read
    (a directory), the run reports nothing on the error stream, prints the
    timing line and ends with status 0. *)
Lemma main_unreadable_input_no_error :
  dir_fs "docs" = Unreadable /\
  (run_main 3 ["kwic"; "docs"; "noise.txt"] dir_fs 7).1 = 0%Z /\
  cerr (run_main 3 ["kwic"; "docs"; "noise.txt"] dir_fs 7).2 = "" /\
  cout (run_main 3 ["kwic"; "docs"; "noise.txt"] dir_fs 7).2
    = nl +:+ nl +:+ "7 microseconds to complete." +:+ nl.
Proof. vm_compute. repeat split. Qed.

(** C9, amended.  In a run with two arguments, when the noise-word file
    cannot be opened, or it can and the input file cannot, the stage writes
    its message to the error stream and the process ends with status 1;
    nothing has been written to the output stream.  (A file that opens is
    never reported, see [main_both_open].) *)
Theorem main_unopenable_file_error (argv : list string) (fs : file_system) (elapsed : Z) :
  fs (nth 2 argv "") = Unopenable \/ fs (nth 1 argv "") = Unopenable ->
  (run_main 3 argv fs elapsed).1 = 1%Z /\
  cout (run_main 3 argv fs elapsed).2 = "" /\
  (fs (nth 2 argv "") = Unopenable ->
     cerr (run_main 3 argv fs elapsed).2 = "Error opening noise words file" +:+ nl /\
     opened (run_main 3 argv fs elapsed).2 = [nth 2 argv ""]) /\
  (fs (nth 2 argv "") <> Unopenable ->
     cerr (run_main 3 argv fs elapsed).2 = "Error opening input file" +:+ nl /\
     opened (run_main 3 argv fs elapsed).2 = [nth 2 argv ""; nth 1 argv ""]).
Proof.
  intros H. unfold run_main.
  assert (fs (nth 2 argv "") = Unopenable \/ fs (nth 2 argv "") <> Unopenable) as [Hn|Hn]
    by (destruct (fs (nth 2 argv "")); [by left | by right..]).
  - rewrite (main_input_stage_exit _ _ _ _ (InputFilter_noise_unopenable _ _ _ _ _ Hn)).
    cbn. repeat split; done.
  - destruct H as [H|Hi]; [done|].
    rewrite (main_input_stage_exit _ _ _ _ (InputFilter_input_unopenable _ _ _ _ _ Hn Hi)).
    cbn. repeat split; done.
Qed.

Lemma main_unopenable_file_error_witness :
  (run_main 3 ["kwic"; "doc.txt"; "missing.txt"] demo_fs 42).1 = 1%Z /\
  cout (run_main 3 ["kwic"; "doc.txt"; "missing.txt"] demo_fs 42).2 = "".
Proof.
  destruct (main_unopenable_file_error ["kwic"; "doc.txt"; "missing.txt"] demo_fs 42
              (or_introl eq_refl)) as (H1 & H2 & _).
  exact (conj H1 H2).
Defined.

(** C10.  Every rotation the loop pushes for a line of [n >= 1] words is,
    for some offset below [n], the words of that rotation each followed by
    one space, so it ends with a space; and after the rotation stage and
    the sort stage every string of the sorted vector ends with a space. *)
Theorem rotations_end_with_space :
  (forall noise shifts line m v,
     store m !! getShifts shifts = Some v ->
     exists out,
       store (final (shift_loop (length line) noise shifts line m)) !! getShifts shifts
         = Some (v ++ out) /\
       forall r, In r out ->
         1 <= length line /\
         (exists i, i < length line /\ r = join (rotation i line) /\
                    join (rotation i line) = spaced (rotation i line)) /\
         ends_with_space r) /\
  (forall lines shifts sortedShifts m,
     store m !! getShifts shifts = Some [] ->
     exists sortedShifts' m' index,
       (do lines' <- CircularShiftFilter_process lines shifts;
        AlphabetizerFilter_process shifts sortedShifts) m = Ret sortedShifts' m' /\
       store m' !! getSortedShifts sortedShifts' = Some index /\
       forall r, In r index -> ends_with_space r).
Proof.
  split.
  - intros noise shifts line m v Hv. exists (kept_rotations noise line).
    rewrite shift_loop_line. cbn [final].
    rewrite store_pushed, decide_True, Hv by done. split; [done|].
    intros r Hr. pose proof (kept_rotations_end_with_space _ _ _ Hr) as He.
    apply In_kept_rotations in Hr as (i & Hi & _ & ->).
    split; [lia|]. split; [|done]. exists i. by rewrite join_spaced.
  - intros repo sh ss m Hm.
    unfold bind. rewrite CircularShiftFilter_process_all, AlphabetizerFilter_process_run.
    eexists _, _, _. split; [reflexivity|]. split.
    + unfold set_store. cbn [store getSortedShifts sortedShifts].
      by rewrite lookup_alter_eq, store_pushed, decide_True, Hm.
    + intros r Hr. cbn [app] in Hr.
      apply (Permutation_in _ (std_sort_perm _)) in Hr.
      apply in_flat_map in Hr as (line & _ & Hr).
      by apply kept_rotations_end_with_space in Hr.
Qed.

Lemma rotations_end_with_space_witness :
  exists out,
    store (final (shift_loop 3 ["the"] (mkShiftRepo 0) ["the"; "quick"; "fox"] started)) !! 0
      = Some ([] ++ out) /\
    forall r, In r out ->
      1 <= 3 /\
      (exists i, i < 3 /\ r = join (rotation i ["the"; "quick"; "fox"]) /\
                 join (rotation i ["the"; "quick"; "fox"])
                 = spaced (rotation i ["the"; "quick"; "fox"])) /\
      ends_with_space r.
Proof.
  exact (proj1 rotations_end_with_space ["the"] (mkShiftRepo 0) ["the"; "quick"; "fox"]
           started [] eq_refl).
Defined.

(** * Further properties of the code *)

(** ** Lowercasing *)

Lemma int_of_char_of_int z : (0 <= z < 128)%Z -> int_of_char (char_of_int z) = z.
Proof.
  intros Hz. unfold int_of_char, char_of_int. rewrite Z.mod_small by lia.
  rewrite nat_ascii_embedding by lia. rewrite Z2Nat.id by lia.
  destruct (Z.ltb_spec z 128); lia.
Qed.

Lemma char_of_int_of_char c : char_of_int (int_of_char c) = c.
Proof.
  unfold int_of_char, char_of_int. pose proof (nat_ascii_bounded c).
  destruct (Z.ltb_spec (Z.of_nat (nat_of_ascii c)) 128).
  - rewrite Z.mod_small by lia. by rewrite Nat2Z.id, ascii_nat_embedding.
  - assert ((Z.of_nat (nat_of_ascii c) - 256) mod 256 = Z.of_nat (nat_of_ascii c))%Z as ->
      by (symmetry; apply (Z.mod_unique _ _ (-1)); lia).
    by rewrite Nat2Z.id, ascii_nat_embedding.
Qed.

Lemma char_of_int_shift z : char_of_int (z + 256) = char_of_int z.
Proof.
  unfold char_of_int. replace (z + 256)%Z with (z + 1 * 256)%Z by lia.
  by rewrite Z.mod_add.
Qed.

Lemma tolower_idem z : tolower (tolower z) = tolower z.
Proof. ctype_cases. Qed.

Lemma isupper_tolower z : isupper (tolower z) = false.
Proof. ctype_cases. Qed.

(** The character [toLowerString] stores for [c]. *)
Lemma lowered_char c :
  char_of_int (tolower (int_of_char c)) =
    if isupper (int_of_char c) then char_of_int (int_of_char c + 32) else c.
Proof.
  unfold tolower. destruct (isupper (int_of_char c)); [done|].
  destruct ((-128 <=? int_of_char c)%Z && (int_of_char c <? -1)%Z);
    [rewrite char_of_int_shift|]; apply char_of_int_of_char.
Qed.

Lemma int_of_lowered_upper c :
  isupper (int_of_char c) = true ->
  int_of_char (char_of_int (int_of_char c + 32)) = (int_of_char c + 32)%Z.
Proof. intros H. apply int_of_char_of_int. ctype_cases. Qed.

Lemma is_upper_lowered c : is_upper (char_of_int (tolower (int_of_char c))) = false.
Proof.
  rewrite lowered_char. destruct (isupper (int_of_char c)) eqn:E; [|exact E].
  unfold is_upper. rewrite int_of_lowered_upper by done. ctype_cases.
Qed.

Lemma lowered_char_fixed c :
  char_of_int (tolower (int_of_char c)) = c <-> is_upper c = false.
Proof.
  unfold is_upper. rewrite lowered_char.
  destruct (isupper (int_of_char c)) eqn:E; [|done]. split; [|done].
  intros H. apply (f_equal int_of_char) in H. rewrite int_of_lowered_upper in H by done. lia.
Qed.

Lemma toLowerString_cons c s :
  toLowerString (String c s) = String (char_of_int (tolower (int_of_char c))) (toLowerString s).
Proof. reflexivity. Qed.

Lemma all_chars_no_upper_lowered s :
  all_chars (fun c => negb (is_upper c)) (toLowerString s) = true.
Proof.
  induction s as [|c s IH]; [done|].
  rewrite toLowerString_cons. cbn [all_chars]. by rewrite is_upper_lowered, IH.
Qed.

Lemma toLowerString_fixed s :
  toLowerString s = s <-> all_chars (fun c => negb (is_upper c)) s = true.
Proof.
  induction s as [|c s IH]; [done|].
  rewrite toLowerString_cons. cbn [all_chars].
  rewrite andb_true_iff, <- IH, negb_true_iff, <- lowered_char_fixed. split.
  - by intros [= Hc Hs].
  - intros [Hc Hs]. by rewrite Hc, Hs.
Qed.

Lemma toLowerString_idem s : toLowerString (toLowerString s) = toLowerString s.
Proof. apply toLowerString_fixed, all_chars_no_upper_lowered. Qed.

Lemma size_toLowerString s : size (toLowerString s) = size s.
Proof.
  unfold size. induction s as [|c s IH]; [done|].
  cbn [toLowerString String.length]. by rewrite IH.
Qed.

Lemma same_letters_cons x a y b :
  same_letters (String x a) (String y b) ->
  tolower (int_of_char x) = tolower (int_of_char y) /\ same_letters a b.
Proof.
  intros [Hs H]. split; [apply (H 0); cbn; lia|]. split; [cbn in Hs; unfold size; lia|].
  intros i Hi. apply (H (S i)). cbn. unfold size in Hi. lia.
Qed.

Lemma same_letters_lowered a b : same_letters a b -> toLowerString a = toLowerString b.
Proof.
  revert b. induction a as [|x a IH]; intros [|y b] H; try done;
    try (destruct H as [Hs _]; cbn in Hs; lia).
  apply same_letters_cons in H as [Hc H]. rewrite !toLowerString_cons, Hc. f_equal. by apply IH.
Qed.

(** ** The reader *)

Lemma all_chars_app p a b : all_chars p (a +:+ b) = all_chars p a && all_chars p b.
Proof.
  induction a as [|c a IH]; [done|].
  rewrite string_app_cons. cbn [all_chars]. by rewrite IH, andb_assoc.
Qed.

Lemma all_chars_push p s c : all_chars p (push_char s c) = all_chars p s && p c.
Proof. unfold push_char. rewrite all_chars_app. cbn. by rewrite andb_true_r. Qed.

Lemma is_empty_true s : is_empty s = true <-> s = "".
Proof. by destruct s. Qed.

Lemma is_empty_push s c : is_empty (push_char s c) = false.
Proof. by destruct s. Qed.

Lemma is_empty_app a b : is_empty (a +:+ b) = is_empty a && is_empty b.
Proof. by destruct a. Qed.

Lemma push_char_app s c t : push_char s c +:+ t = s +:+ String c t.
Proof. unfold push_char. by rewrite string_app_assoc. Qed.

Lemma extract_from_tokens rest cur w :
  all_chars (fun c => negb (is_space c)) cur = true ->
  In w (extract_from cur rest) -> is_token w.
Proof.
  revert cur. induction rest as [|c rest IH]; intros cur Hcur; cbn [extract_from].
  - destruct (is_empty cur) eqn:E; [done|]. intros [<-|[]]. split; [|done].
    intros ->. discriminate E.
  - fold (is_space c). destruct (is_space c) eqn:Hc.
    + destruct (is_empty cur) eqn:E; [by apply IH|].
      intros [<-|Hw]; [|by apply (IH "")]. split; [|done]. intros ->. discriminate E.
    + apply IH. by rewrite all_chars_push, Hcur, Hc.
Qed.

Lemma extract_from_nil rest cur :
  extract_from cur rest = [] <-> cur = "" /\ all_chars is_space rest = true.
Proof.
  revert cur. induction rest as [|c rest IH]; intros cur; cbn [extract_from all_chars].
  - destruct cur; [by split|]. cbn. split; [done|]. by intros [? _].
  - fold (is_space c). destruct (is_space c) eqn:Hc; cbn [andb].
    + destruct cur as [|x cur]; cbn [is_empty]; [apply IH|].
      split; [done|]. by intros [? _].
    + rewrite IH. split; [|by intros [_ ?]]. intros [E _].
      apply is_empty_true in E. by rewrite is_empty_push in E.
Qed.

Lemma extract_from_word w cur rest :
  all_chars (fun c => negb (is_space c)) w = true ->
  extract_from cur (w +:+ rest) = extract_from (cur +:+ w) rest.
Proof.
  revert cur. induction w as [|c w IH]; intros cur Hw.
  - by rewrite string_app_nil_r.
  - cbn [all_chars] in Hw. apply andb_true_iff in Hw as [Hc Hw].
    rewrite string_app_cons. cbn [extract_from]. fold (is_space c).
    apply negb_true_iff in Hc. rewrite Hc, IH by done. by rewrite push_char_app.
Qed.

Lemma extract_from_spaced ws :
  Forall is_token ws -> extract_from "" (spaced ws) = ws.
Proof.
  induction 1 as [|w ws [Hne Hw] _ IH]; [done|].
  cbn [spaced]. rewrite extract_from_word by done.
  change ("" +:+ w) with w. change (" " +:+ spaced ws) with (String " " (spaced ws)).
  cbn [extract_from]. change (isspace (int_of_char " ")) with true. cbv iota.
  destruct w; [done|]. cbn [is_empty]. by rewrite IH.
Qed.

Lemma extract_words_tokens line : Forall is_token (extract_words line).
Proof.
  apply List.Forall_forall. intros w. by apply extract_from_tokens.
Qed.

Lemma getlines_from_no_newline rest cur l :
  all_chars (fun c => negb (is_newline c)) cur = true ->
  In l (getlines_from cur rest) -> all_chars (fun c => negb (is_newline c)) l = true.
Proof.
  revert cur. induction rest as [|c rest IH]; intros cur Hcur; cbn [getlines_from].
  - destruct (is_empty cur); [done|]. by intros [<-|[]].
  - fold (is_newline c). destruct (is_newline c) eqn:Hc.
    + intros [<-|Hl]; [done|]. by apply (IH "").
    + apply IH. by rewrite all_chars_push, Hcur, Hc.
Qed.

Lemma getlines_from_line l cur rest :
  all_chars (fun c => negb (is_newline c)) l = true ->
  getlines_from cur (l +:+ nl +:+ rest) = (cur +:+ l) :: getlines_from "" rest.
Proof.
  revert cur. induction l as [|c l IH]; intros cur Hl.
  - by rewrite string_app_nil_r.
  - cbn [all_chars] in Hl. apply andb_true_iff in Hl as [Hc Hl].
    rewrite string_app_cons. cbn [getlines_from]. fold (is_newline c).
    apply negb_true_iff in Hc. rewrite Hc, IH by done. by rewrite push_char_app.
Qed.

Lemma getlines_from_last l cur :
  all_chars (fun c => negb (is_newline c)) l = true ->
  getlines_from cur l = if is_empty (cur +:+ l) then [] else [cur +:+ l].
Proof.
  revert cur. induction l as [|c l IH]; intros cur Hl.
  - by rewrite string_app_nil_r.
  - cbn [all_chars] in Hl. apply andb_true_iff in Hl as [Hc Hl].
    cbn [getlines_from]. fold (is_newline c).
    apply negb_true_iff in Hc. rewrite Hc, IH by done. by rewrite push_char_app.
Qed.

(** ** The stages, end to end *)

Lemma read_words_fields inlines r :
  lines (read_words inlines r) = lines r /\
  lines2d (read_words inlines r) = lines2d r ++ document_of inlines /\
  noiseWords (read_words inlines r) = noiseWords r.
Proof.
  unfold read_words, document_of. revert r.
  induction inlines as [|l ls IH]; intros r; cbn [fold_left map].
  - by rewrite app_nil_r.
  - destruct (IH (LineRepo_add (extract_words l) r)) as (-> & -> & ->).
    cbn. by rewrite <- app_assoc.
Qed.

Lemma read_noiseWords_fields nwlines r :
  lines (read_noiseWords nwlines r) = lines r /\
  lines2d (read_noiseWords nwlines r) = lines2d r /\
  noiseWords (read_noiseWords nwlines r) = noiseWords r ++ noise_of nwlines.
Proof.
  split; [|split; [|apply noiseWords_read]]; unfold read_noiseWords; revert r;
    (induction nwlines as [|l ls IH]; intros r; [done|]; cbn [fold_left]; rewrite IH;
     generalize (extract_words l); intros ws; revert r;
     induction ws as [|w ws IHw]; intros r; [done|]; cbn [fold_left]; by rewrite IHw).
Qed.

Lemma read_both_from_new nwlines inlines :
  read_words inlines (read_noiseWords nwlines LineRepo_new)
  = mkLineRepo [] (document_of inlines) (noise_of nwlines).
Proof.
  destruct (read_words_fields inlines (read_noiseWords nwlines LineRepo_new)) as (H1 & H2 & H3).
  destruct (read_noiseWords_fields nwlines LineRepo_new) as (G1 & G2 & G3).
  rewrite G1 in H1. rewrite G2 in H2. rewrite G3 in H3.
  destruct (read_words inlines (read_noiseWords nwlines LineRepo_new)). cbn in *. by subst.
Qed.

Lemma print_lines_rendered v m :
  print_lines v m =
    Ret tt (mkMachine (store m) (next m) (cout m +:+ rendered v) (cerr m) (opened m)).
Proof.
  revert m. induction v as [|line v IH]; intros m.
  - cbn. rewrite string_app_nil_r. by destruct m.
  - cbn [print_lines rendered]. unfold bind, write_cout. rewrite IH. cbn.
    by rewrite !string_app_assoc.
Qed.

Lemma started_index_lookup R :
  alter (std_sort caseSensitive) 0 (alter (fun v => v ++ R) 0 (store started)) !! 0
  = Some (std_sort caseSensitive R).
Proof.
  rewrite !lookup_alter_eq. cbn [store started].
  rewrite lookup_insert_ne by done. by rewrite lookup_insert_eq.
Qed.

(** The whole run when both files open. *)
Lemma main_opened_run argv fs elapsed :
  fs (nth 2 argv "") <> Unopenable -> fs (nth 1 argv "") <> Unopenable ->
  let noise := noise_of (stream_lines (fs (nth 2 argv ""))) in
  let doc := document_of (stream_lines (fs (nth 1 argv ""))) in
  main 3 argv fs elapsed boot =
    Ret 0%Z (mkMachine
               (alter (std_sort caseSensitive) 0
                  (alter (fun v => v ++ flat_map (kept_rotations noise) doc) 0 (store started)))
               2
               (rendered (index_of (stream_lines (fs (nth 2 argv "")))
                                   (stream_lines (fs (nth 1 argv "")))) +:+ timing_line elapsed)
               "" [nth 2 argv ""; nth 1 argv ""]).
Proof.
  intros Hn Hi noise doc. rewrite main_right_count.
  unfold Pipeline_process, OutputFilter_process, bind.
  rewrite (InputFilter_both_open _ _ _ _ _ Hn Hi). cbv beta iota.
  rewrite read_both_from_new.
  rewrite CircularShiftFilter_process_all. cbv beta iota.
  rewrite AlphabetizerFilter_process_run. cbv beta iota.
  unfold deref. rewrite print_lines_rendered. cbv beta iota.
  unfold ret, write_cout, pushed, set_store, getSortedShifts, getShifts, getLines2d.
  cbn [store next cout cerr opened started sortedShifts shifts lines2d noiseWords app].
  rewrite started_index_lookup. cbn [default]. reflexivity.
Qed.

Lemma stream_lines_as_empty fs path : stream_lines (as_empty fs path) = stream_lines (fs path).
Proof. unfold as_empty. by destruct (fs path). Qed.

Lemma unopenable_as_empty fs path : as_empty fs path = Unopenable <-> fs path = Unopenable.
Proof. unfold as_empty. by destruct (fs path). Qed.

Lemma flat_map_all_nil {A B} (f : A -> list B) (l : list A) :
  (forall a, In a l -> f a = []) -> flat_map f l = [].
Proof.
  induction l as [|a l IH]; intros H; [done|].
  cbn. rewrite (H a) by (by left). apply IH. intros b Hb. apply H. by right.
Qed.

Lemma std_sort_nil : std_sort caseSensitive [] = [].
Proof. apply Permutation_nil_r, std_sort_perm. Qed.

Lemma kept_rotations_nil noise line :
  kept_rotations noise line = [] <-> forall w, In w line -> isNoiseWord w noise = true.
Proof.
  split.
  - intros E w Hw. apply (In_nth _ _ "") in Hw as (i & Hi & <-).
    destruct (isNoiseWord (nth i line "") noise) eqn:Hn; [done|].
    assert (In (spaced (rotation i line)) (kept_rotations noise line)) as Hin
      by (apply In_kept_rotations; by exists i).
    by rewrite E in Hin.
  - intros H. destruct (kept_rotations noise line) as [|r rs] eqn:E; [done|].
    assert (In r (kept_rotations noise line)) as Hin by (rewrite E; by left).
    apply In_kept_rotations in Hin as (i & Hi & Hn & _).
    rewrite H in Hn; [done|]. by apply nth_In.
Qed.

Lemma rotation_perm i line : rotation i line ≡ₚ line.
Proof.
  unfold rotation. rewrite Permutation_app_comm. by rewrite take_drop.
Qed.

(** ** More on the comparator *)

Lemma caseSensitive_keys a b : caseSensitive a b = lex_lt (keys a) (keys b).
Proof.
  revert b. induction a as [|x a IH]; intros [|y b]; cbn [keys lex_lt].
  - done.
  - done.
  - apply caseSensitive_nil_r.
  - by rewrite caseSensitive_key, IH.
Qed.

Lemma caseSensitive_prefix p a b : caseSensitive (p +:+ a) (p +:+ b) = caseSensitive a b.
Proof.
  induction p as [|x p IH]; [done|].
  by rewrite !string_app_cons, caseSensitive_key, Z.ltb_irrefl.
Qed.

(** * Further results *)

(** X1.  [toLowerString] is idempotent, keeps the size of the string and
    leaves no uppercase letter in it. *)
Theorem toLowerString_idempotent (s : string) :
  toLowerString (toLowerString s) = toLowerString s /\
  size (toLowerString s) = size s /\
  all_chars (fun c => negb (is_upper c)) (toLowerString s) = true.
Proof.
  split; [apply toLowerString_idem|].
  split; [apply size_toLowerString | apply all_chars_no_upper_lowered].
Qed.

(** X2.  [toLowerString] returns its argument unchanged exactly when the
    argument holds no uppercase letter; every other character, digits and
    punctuation included, is kept. *)
Theorem toLowerString_unchanged_iff (s : string) :
  toLowerString s = s <-> all_chars (fun c => negb (is_upper c)) s = true.
Proof. apply toLowerString_fixed. Qed.

(** X3.  [isNoiseWord] does not see letter case in the word: two words of
    one size whose characters have the same folded values get the same
    answer from every noise-word vector. *)
Theorem isNoiseWord_ignores_case (a b : string) (noiseWords : list string) :
  same_letters a b -> isNoiseWord a noiseWords = isNoiseWord b noiseWords.
Proof.
  intros H. unfold isNoiseWord. by rewrite (same_letters_lowered a b H).
Qed.

Lemma isNoiseWord_ignores_case_witness :
  isNoiseWord "The" ["the"; "of"] = isNoiseWord "tHE" ["the"; "of"].
Proof.
  apply isNoiseWord_ignores_case. split; [reflexivity|].
  intros i Hi. cbn in Hi. do 3 (destruct i as [|i]; [reflexivity|]). lia.
Defined.

(** X4.  [isNoiseWord] folds the word only, not the vector: an entry that
    is not in lowercase form never matches, so the answer is the one given
    by the entries that are in lowercase form. *)
Theorem isNoiseWord_lowercase_entries_only (word : string) (noiseWords : list string) :
  isNoiseWord word noiseWords =
  isNoiseWord word (List.filter (fun e => String.eqb (toLowerString e) e) noiseWords).
Proof.
  unfold isNoiseWord. induction noiseWords as [|e v IH]; [done|].
  cbn [find_string List.filter].
  destruct (String.eqb_spec e (toLowerString word)) as [->|Hne].
  - rewrite toLowerString_idem, String.eqb_refl. cbn [find_string].
    by rewrite String.eqb_refl.
  - destruct (String.eqb (toLowerString e) e); [|exact IH].
    cbn [find_string]. destruct (String.eqb_spec e (toLowerString word)); [done|exact IH].
Qed.

(** X5.  Every word [extract_words] delivers is a token: it is not empty
    and holds no whitespace character. *)
Theorem extract_words_tokens_only (line w : string) :
  In w (extract_words line) -> is_token w.
Proof. by apply extract_from_tokens. Qed.

Lemma extract_words_tokens_only_witness : is_token "cat".
Proof.
  apply (extract_words_tokens_only "  The   cat sat "). right. left. reflexivity.
Defined.

(** X6.  A line gives no word exactly when it consists of whitespace only;
    the empty line is such a line. *)
Theorem extract_words_nil_iff (line : string) :
  extract_words line = [] <-> all_chars is_space line = true.
Proof.
  unfold extract_words. rewrite extract_from_nil. split; [by intros [_ ?]|done].
Qed.

(** X7.  Round trip: the string built by the rotation stage from a vector
    of tokens is split by the reader into these tokens again; so re-reading
    the joined words of any line gives the words of the line. *)
Theorem extract_words_join (ws : list string) :
  Forall is_token ws -> extract_words (join ws) = ws.
Proof.
  intros H. rewrite join_spaced. by apply extract_from_spaced.
Qed.

Lemma extract_words_join_witness :
  extract_words (join (extract_words " quick  fox the")) = extract_words " quick  fox the".
Proof. apply extract_words_join, extract_words_tokens. Defined.

(** X8.  Round trip of the line reader: from a text made of lines without
    newline, each closed by a newline, and of a last piece [l] without
    newline, [getlines] delivers these lines and then [l] unless [l] is
    empty: a last line without newline is read, a final newline opens no
    further line. *)
Theorem getlines_unlines (ls : list string) (l : string) :
  Forall (fun x => all_chars (fun c => negb (is_newline c)) x = true) ls ->
  all_chars (fun c => negb (is_newline c)) l = true ->
  getlines (unlines ls +:+ l) = ls ++ (if is_empty l then [] else [l]).
Proof.
  intros Hls Hl. unfold getlines. induction Hls as [|x ls Hx _ IH].
  - cbn [unlines app]. change ("" +:+ l) with l. by rewrite getlines_from_last.
  - cbn [unlines]. rewrite !string_app_assoc, getlines_from_line by done.
    by rewrite IH.
Qed.

Lemma getlines_unlines_witness :
  getlines (unlines ["the quick fox"; ""] +:+ "a cat") = ["the quick fox"; ""] ++ ["a cat"].
Proof.
  apply (getlines_unlines ["the quick fox"; ""] "a cat"); [|reflexivity].
  repeat constructor.
Defined.

(** X9.  No line delivered by [getlines] holds a newline. *)
Theorem getlines_no_newline (content l : string) :
  In l (getlines content) -> all_chars (fun c => negb (is_newline c)) l = true.
Proof. by apply getlines_from_no_newline. Qed.

Lemma getlines_no_newline_witness :
  all_chars (fun c => negb (is_newline c)) "a b" = true.
Proof.
  apply (getlines_no_newline ("a b" +:+ nl +:+ nl +:+ "c")). left. reflexivity.
Defined.

(** X10.  When both files open, [InputFilter::process] returns: the noise
    words grow by the lowercase forms of the tokens of the noise-word
    stream, the stored lines by one word vector per line of the input
    stream, in order, an empty vector for a blank line; the vector of raw
    lines is never written.  The noise-word file is opened first; vectors
    and both output streams are untouched. *)
Theorem InputFilter_process_stores (fs : file_system) (inputFile noiseWordFile : string)
    (lines : LineRepo) (m : Machine) :
  fs noiseWordFile <> Unopenable -> fs inputFile <> Unopenable ->
  exists lines',
    InputFilter_process fs inputFile noiseWordFile lines m =
      Ret lines' (mkMachine (store m) (next m) (cout m) (cerr m)
                    (opened m ++ [noiseWordFile; inputFile])) /\
    noiseWords lines' = noiseWords lines ++ noise_of (stream_lines (fs noiseWordFile)) /\
    getLines2d lines' = getLines2d lines ++ document_of (stream_lines (fs inputFile)) /\
    length (getLines2d lines') = length (getLines2d lines) + length (stream_lines (fs inputFile)) /\
    getLines lines' = getLines lines.
Proof.
  intros Hn Hi. eexists. split; [by apply InputFilter_both_open|].
  destruct (read_words_fields (stream_lines (fs inputFile))
              (read_noiseWords (stream_lines (fs noiseWordFile)) lines)) as (H1 & H2 & H3).
  destruct (read_noiseWords_fields (stream_lines (fs noiseWordFile)) lines) as (G1 & G2 & G3).
  unfold getLines2d, getLines. rewrite H1, H2, H3, G1, G2, G3.
  repeat split. unfold document_of. by rewrite length_app, length_map.
Qed.

Lemma InputFilter_process_stores_witness :
  exists lines',
    InputFilter_process demo_fs "doc.txt" "noise.txt" LineRepo_new started =
      Ret lines' (mkMachine (store started) 2 "" "" ([] ++ ["noise.txt"; "doc.txt"])) /\
    noiseWords lines' = ["the"; "a"; "of"] /\
    getLines2d lines' = [["the"; "quick"; "fox"]].
Proof.
  destruct (InputFilter_process_stores demo_fs "doc.txt" "noise.txt" LineRepo_new started)
    as (lines' & H1 & H2 & H3 & _); [discriminate..|].
  exists lines'. exact (conj H1 (conj H2 H3)).
Defined.

(** X11.  [CircularShiftFilter::process] as a whole: the kept rotations of
    all stored lines are appended to the vector of [shifts], line after line
    in document order; the [LineRepo] comes back as it was (every line has
    been rotated back to its start), and no other vector and no stream is
    touched. *)
Theorem CircularShiftFilter_process_appends (lines : LineRepo) (shifts : ShiftRepo)
    (m : Machine) (v : list string) :
  store m !! getShifts shifts = Some v ->
  exists m',
    CircularShiftFilter_process lines shifts m = Ret lines m' /\
    store m' !! getShifts shifts
      = Some (v ++ flat_map (kept_rotations (noiseWords lines)) (getLines2d lines)) /\
    (forall q, q <> getShifts shifts -> store m' !! q = store m !! q) /\
    next m' = next m /\ cout m' = cout m /\ cerr m' = cerr m /\ opened m' = opened m.
Proof.
  intros Hv. eexists. split; [apply CircularShiftFilter_process_all|].
  split; [by rewrite store_pushed, decide_True, Hv|].
  split; [|done]. intros q Hq. by rewrite store_pushed, decide_False.
Qed.

Lemma CircularShiftFilter_process_appends_witness :
  exists m',
    CircularShiftFilter_process (mkLineRepo [] [["the"; "cat"]; []; ["a"; "dog"]] ["the"; "a"])
      (mkShiftRepo 0) started
    = Ret (mkLineRepo [] [["the"; "cat"]; []; ["a"; "dog"]] ["the"; "a"]) m' /\
    store m' !! 0 = Some ["cat the "; "dog a "].
Proof.
  destruct (CircularShiftFilter_process_appends
              (mkLineRepo [] [["the"; "cat"]; []; ["a"; "dog"]] ["the"; "a"])
              (mkShiftRepo 0) started [] eq_refl) as (m' & H1 & H2 & _).
  exists m'. exact (conj H1 H2).
Defined.

(** X14.  The ordered index does not depend on the order in which the
    rotations were pushed: two vectors with the same strings, each as often,
    are sorted into one and the same vector. *)
Theorem std_sort_order_irrelevant (v v' : list string) :
  v ≡ₚ v' -> std_sort caseSensitive v = std_sort caseSensitive v'.
Proof.
  intros Hp. apply std_sort_unique; [|apply std_sort_sorted].
  by rewrite std_sort_perm.
Qed.

Lemma std_sort_order_irrelevant_witness :
  std_sort caseSensitive ["quick fox the "; "fox the quick "]
  = std_sort caseSensitive ["fox the quick "; "quick fox the "].
Proof. apply std_sort_order_irrelevant. apply perm_swap. Defined.

(** X15.  [OutputFilter::process] appends to the output stream, for every
    string of the vector in order, a newline, the string and a newline; it
    prints nothing for an empty vector, changes no vector and writes nothing
    to the error stream. *)
Theorem OutputFilter_process_prints (sortedShifts : SortedShiftRepo) (m : Machine) :
  OutputFilter_process sortedShifts m =
    Ret tt (mkMachine (store m) (next m)
              (cout m +:+ rendered (default [] (store m !! getSortedShifts sortedShifts)))
              (cerr m) (opened m)).
Proof. unfold OutputFilter_process, bind, deref. apply print_lines_rendered. Qed.

(** X16.  End to end: when both files can be read, [main] returns 0,
    writes nothing to the error stream and prints, each between two
    newlines and in the order of [caseSensitive], the kept rotations of all
    lines of the document, then the timing line.  The index is left in the
    vector of [shifts]. *)
Theorem main_prints_index (argv : list string) (fs : file_system) (elapsed : Z)
    (noise_text input_text : string) :
  fs (nth 2 argv "") = Readable noise_text ->
  fs (nth 1 argv "") = Readable input_text ->
  let index := index_of (getlines noise_text) (getlines input_text) in
  (run_main 3 argv fs elapsed).1 = 0%Z /\
  cout (run_main 3 argv fs elapsed).2 = rendered index +:+ timing_line elapsed /\
  cerr (run_main 3 argv fs elapsed).2 = "" /\
  opened (run_main 3 argv fs elapsed).2 = [nth 2 argv ""; nth 1 argv ""] /\
  store (run_main 3 argv fs elapsed).2 !! 0 = Some index /\
  sorted_by caseSensitive index /\
  index ≡ₚ flat_map (kept_rotations (noise_of (getlines noise_text)))
                    (document_of (getlines input_text)).
Proof.
  intros Hn Hi index. unfold run_main.
  rewrite main_opened_run by (rewrite ?Hn, ?Hi; done). rewrite Hn, Hi.
  cbn [fst snd status final cout cerr opened store stream_lines].
  split; [done|]. split; [done|]. split; [done|]. split; [done|].
  split; [apply started_index_lookup|]. split; [apply std_sort_sorted | apply std_sort_perm].
Qed.

Lemma main_prints_index_witness :
  (run_main 3 ["kwic"; "doc.txt"; "noise.txt"] demo_fs 42).1 = 0%Z /\
  cout (run_main 3 ["kwic"; "doc.txt"; "noise.txt"] demo_fs 42).2
    = rendered (index_of (getlines ("The A" +:+ nl +:+ "of")) (getlines ("the quick fox" +:+ nl)))
      +:+ timing_line 42.
Proof.
  destruct (main_prints_index ["kwic"; "doc.txt"; "noise.txt"] demo_fs 42
              ("The A" +:+ nl +:+ "of") ("the quick fox" +:+ nl) eq_refl eq_refl)
    as (H1 & H2 & _).
  exact (conj H1 H2).
Defined.

(** X17.  When every word of the document is a noise word (an empty
    document included), the run is no error: [main] returns 0 and prints
    the timing line only. *)
Theorem main_all_noise (argv : list string) (fs : file_system) (elapsed : Z)
    (noise_text input_text : string) :
  fs (nth 2 argv "") = Readable noise_text ->
  fs (nth 1 argv "") = Readable input_text ->
  (forall line w, In line (document_of (getlines input_text)) -> In w line ->
                  isNoiseWord w (noise_of (getlines noise_text)) = true) ->
  (run_main 3 argv fs elapsed).1 = 0%Z /\
  cout (run_main 3 argv fs elapsed).2 = timing_line elapsed /\
  cerr (run_main 3 argv fs elapsed).2 = "".
Proof.
  intros Hn Hi Hall. unfold run_main.
  rewrite main_opened_run by (rewrite ?Hn, ?Hi; done). rewrite Hn, Hi.
  cbn [fst snd status final cout cerr stream_lines].
  split; [done|]. split; [|done]. unfold index_of.
  rewrite flat_map_all_nil, std_sort_nil; [done|].
  intros line Hline. apply kept_rotations_nil. intros w Hw. by apply (Hall line).
Qed.

Lemma main_all_noise_witness :
  (run_main 3 ["kwic"; "noise.txt"; "noise.txt"] demo_fs 42).1 = 0%Z /\
  cout (run_main 3 ["kwic"; "noise.txt"; "noise.txt"] demo_fs 42).2 = timing_line 42 /\
  cerr (run_main 3 ["kwic"; "noise.txt"; "noise.txt"] demo_fs 42).2 = "".
Proof.
  apply (main_all_noise ["kwic"; "noise.txt"; "noise.txt"] demo_fs 42
           ("The A" +:+ nl +:+ "of") ("The A" +:+ nl +:+ "of") eq_refl eq_refl).
  intros line w Hline Hw. vm_compute in Hline.
  destruct Hline as [<-|[<-|[]]].
  - destruct Hw as [<-|[<-|[]]]; reflexivity.
  - destruct Hw as [<-|[]]; reflexivity.
Defined.

(** X18.  The exit status is 0 or 1, and it is 0 exactly when there are two
    arguments and both files open.  With status 1 the error stream holds a
    message and nothing was printed; with status 0 the error stream is
    empty. *)
Theorem main_status (argc : Z) (argv : list string) (fs : file_system) (elapsed : Z) :
  ((run_main argc argv fs elapsed).1 = 0%Z <->
     argc = 3%Z /\ fs (nth 2 argv "") <> Unopenable /\ fs (nth 1 argv "") <> Unopenable) /\
  ((run_main argc argv fs elapsed).1 = 0%Z /\ cerr (run_main argc argv fs elapsed).2 = "" \/
   (run_main argc argv fs elapsed).1 = 1%Z /\ cout (run_main argc argv fs elapsed).2 = "" /\
     is_empty (cerr (run_main argc argv fs elapsed).2) = false).
Proof.
  unfold run_main. destruct (Z.eq_dec argc 3%Z) as [->|Hc].
  - assert (fs (nth 2 argv "") = Unopenable \/ fs (nth 2 argv "") <> Unopenable) as [Hn|Hn]
      by (destruct (fs (nth 2 argv "")); [by left | by right..]).
    { rewrite (main_input_stage_exit _ _ _ _ (InputFilter_noise_unopenable _ _ _ _ _ Hn)).
      cbn. split; [|by right]. split; [done|]. by intros (_ & ? & _). }
    assert (fs (nth 1 argv "") = Unopenable \/ fs (nth 1 argv "") <> Unopenable) as [Hi|Hi]
      by (destruct (fs (nth 1 argv "")); [by left | by right..]).
    { rewrite (main_input_stage_exit _ _ _ _ (InputFilter_input_unopenable _ _ _ _ _ Hn Hi)).
      cbn. split; [|by right]. split; [done|]. by intros (_ & _ & ?). }
    rewrite main_opened_run by done. cbn. split; [done|by left].
  - destruct (main_wrong_count argc argv fs elapsed Hc) as [reason ->]. cbn.
    split; [split; [done|by intros [? _]]|]. right.
    split; [done|]. split; [done|]. rewrite is_empty_app. apply andb_false_r.
Qed.

Lemma main_status_witness :
  (run_main 3 ["kwic"; "doc.txt"; "noise.txt"] demo_fs 42).1 = 0%Z.
Proof.
  apply (proj1 (main_status 3 ["kwic"; "doc.txt"; "noise.txt"] demo_fs 42)).
  split; [reflexivity|]. split; discriminate.
Defined.

(** X19.  A file that opens but delivers nothing when read is handled like
    an empty file: the run is the same, status and streams, as with an empty
    file in its place. *)
Theorem main_unreadable_as_empty (argc : Z) (argv : list string) (fs : file_system)
    (elapsed : Z) :
  run_main argc argv (as_empty fs) elapsed = run_main argc argv fs elapsed.
Proof.
  unfold run_main. destruct (Z.eq_dec argc 3%Z) as [->|Hc].
  - assert (fs (nth 2 argv "") = Unopenable \/ fs (nth 2 argv "") <> Unopenable) as [Hn|Hn]
      by (destruct (fs (nth 2 argv "")); [by left | by right..]).
    { rewrite (main_input_stage_exit _ _ _ _ (InputFilter_noise_unopenable _ _ _ _ _ Hn)).
      apply unopenable_as_empty in Hn.
      by rewrite (main_input_stage_exit _ _ _ _ (InputFilter_noise_unopenable _ _ _ _ _ Hn)). }
    assert (fs (nth 1 argv "") = Unopenable \/ fs (nth 1 argv "") <> Unopenable) as [Hi|Hi]
      by (destruct (fs (nth 1 argv "")); [by left | by right..]).
    { rewrite (main_input_stage_exit _ _ _ _ (InputFilter_input_unopenable _ _ _ _ _ Hn Hi)).
      rewrite <- unopenable_as_empty in Hn, Hi.
      by rewrite (main_input_stage_exit _ _ _ _ (InputFilter_input_unopenable _ _ _ _ _ Hn Hi)). }
    rewrite (main_opened_run argv fs) by done.
    rewrite <- unopenable_as_empty in Hn, Hi.
    rewrite (main_opened_run argv (as_empty fs)) by done.
    by rewrite !stream_lines_as_empty.
  - unfold main. destruct (Z.ltb_spec argc 3); [done|].
    destruct (Z.gtb_spec argc 3); [done|lia].
Qed.

(** X20.  A common prefix plays no part in the comparison; a string orders
    before every proper extension of itself and never after one. *)
Theorem caseSensitive_common_prefix (p a b : string) :
  caseSensitive (p +:+ a) (p +:+ b) = caseSensitive a b /\
  caseSensitive p (p +:+ b) = negb (is_empty b) /\
  caseSensitive (p +:+ b) p = false.
Proof.
  split; [apply caseSensitive_prefix|]. split.
  - rewrite <- (string_app_nil_r p) at 1.
    by rewrite caseSensitive_prefix, caseSensitive_nil_l.
  - rewrite <- (string_app_nil_r p) at 2.
    by rewrite caseSensitive_prefix, caseSensitive_nil_r.
Qed.

(** X21.  The comparison is made character by character, not on the folded
    strings first: after a common prefix, a lowercase letter against its
    uppercase form decides, whatever follows in either string. *)
Theorem caseSensitive_case_decides_first (p s t : string) (x y : ascii) :
  tolower (int_of_char x) = tolower (int_of_char y) ->
  islower (int_of_char x) = true -> x <> y ->
  caseSensitive (p +:+ String x s) (p +:+ String y t) = true /\
  caseSensitive (p +:+ String y t) (p +:+ String x s) = false.
Proof.
  intros Hf Hl Hne.
  assert (caseSensitive (p +:+ String x s) (p +:+ String y t) = true) as H.
  { rewrite caseSensitive_prefix, caseSensitive_cons. cbv zeta.
    rewrite Hf, Z.eqb_refl. cbn [negb].
    assert (int_of_char x <> int_of_char y) as Hi by (intros E; by apply int_of_char_inj in E).
    destruct (same_fold_cases _ _ (int_of_char_range _) (int_of_char_range _) Hf Hi)
      as (H1 & _).
    destruct (Z.eqb_spec (int_of_char x) (int_of_char y)); [done|]. cbn [negb].
    by rewrite <- H1, Hl. }
  split; [exact H | by apply caseSensitive_asym].
Qed.

Lemma caseSensitive_case_decides_first_witness :
  caseSensitive ("th" +:+ String "e" "z") ("th" +:+ String "E" "a") = true /\
  caseSensitive ("th" +:+ String "E" "a") ("th" +:+ String "e" "z") = false.
Proof.
  apply (caseSensitive_case_decides_first "th" "z" "a" "e" "E");
    [reflexivity | reflexivity | discriminate].
Defined.

(** X22.  [caseSensitive] is the dictionary order of the strings read as
    sequences of character keys, the key of a character being twice its
    folded value, plus one for an uppercase letter. *)
Theorem caseSensitive_is_lex_on_keys (a b : string) :
  caseSensitive a b = lex_lt (keys a) (keys b).
Proof. apply caseSensitive_keys. Qed.

(** * The rotation stage and the noise test *)

Lemma flat_map_nil_all {A B} (f : A -> list B) (l : list A) :
  flat_map f l = [] -> forall a, In a l -> f a = [].
Proof.
  induction l as [|x l IH]; [done|]. cbn [flat_map].
  intros [Hx Hl]%app_eq_nil a [<-|Ha]; [done|by apply IH].
Qed.

Lemma kept_rotations_unfold noise line :
  kept_rotations noise line =
    flat_map (fun i => if isNoiseWord (nth i line "") noise then []
                       else [join (rotation i line)]) (seq 0 (length line)).
Proof.
  unfold kept_rotations. apply flat_map_agree. intros i _. by rewrite join_spaced.
Qed.

Lemma Forall2_map_r {A B} (P : A -> B -> Prop) (f : A -> B) (l : list A) :
  (forall a, P a (f a)) -> Forall2 P l (map f l).
Proof. intros H. induction l as [|a l IH]; constructor; [apply H|exact IH]. Qed.

Lemma char_of_int_fold_inj x y :
  char_of_int (tolower (int_of_char x)) = char_of_int (tolower (int_of_char y)) ->
  tolower (int_of_char x) = tolower (int_of_char y).
Proof.
  assert (forall c, (-1 <= tolower (int_of_char c) < 255)%Z) as Hr
    by (intros c; pose proof (int_of_char_range c); ctype_cases).
  assert (forall z, (-1 <= z < 255)%Z ->
            Z.of_nat (nat_of_ascii (char_of_int z)) = if (z =? -1)%Z then 255%Z else z) as Hc.
  { intros z Hz. unfold char_of_int. destruct (Z.eqb_spec z (-1)) as [->|Hne]; [done|].
    rewrite Z.mod_small by lia. rewrite nat_ascii_embedding by lia. lia. }
  intros E. apply (f_equal (fun c => Z.of_nat (nat_of_ascii c))) in E.
  rewrite !Hc in E by apply Hr. pose proof (Hr x). pose proof (Hr y).
  destruct (Z.eqb_spec (tolower (int_of_char x)) (-1));
    destruct (Z.eqb_spec (tolower (int_of_char y)) (-1)); lia.
Qed.

Lemma lowered_same_letters a b : toLowerString a = toLowerString b -> same_letters a b.
Proof.
  revert b. induction a as [|x a IH]; intros [|y b].
  - intros _. split; [reflexivity|]. intros i Hi. cbn in Hi. lia.
  - cbn. discriminate.
  - cbn. discriminate.
  - rewrite !toLowerString_cons. intros [= Hc Hs].
    apply char_of_int_fold_inj in Hc. destruct (IH b Hs) as [Hsz Hl].
    split; [unfold size in *; cbn; lia|].
    intros [|i] Hi; [exact Hc|]. rewrite !at_cons. apply Hl.
    unfold size in *. cbn in Hi. lia.
Qed.

(** C2.  For every stored line of [n] words, [CircularShiftFilter::process]
    goes through the offsets 0, ..., n-1 in increasing order and pushes the
    rotation at offset [i], its words each followed by one space, exactly
    when the word at position [i] of the line is not a noise word; that word
    is the front word of the rotated vector, the one the code tests.  The
    lines are taken in document order and left as they were. *)
Theorem CircularShiftFilter_emits_kept_rotations (lines : LineRepo) (shifts : ShiftRepo)
    (m : Machine) (v : list string) :
  store m !! getShifts shifts = Some v ->
  (exists m',
     CircularShiftFilter_process lines shifts m = Ret lines m' /\
     store m' !! getShifts shifts =
       Some (v ++ flat_map
                    (fun line =>
                       flat_map (fun i => if isNoiseWord (nth i line "") (noiseWords lines)
                                          then [] else [join (rotation i line)])
                                (seq 0 (length line)))
                    (getLines2d lines))) /\
  (forall line i, i < length line -> front (rotation i line) = nth i line "") /\
  (forall line k n, k + n <= length line ->
     shift_loop n (noiseWords lines) shifts (rotation k line) m =
       Ret (rotation (k + n) line)
           (pushed (getShifts shifts)
              (flat_map (fun i => if isNoiseWord (front (rotation i line)) (noiseWords lines)
                                  then [] else [join (rotation i line)]) (seq k n)) m)).
Proof.
  intros Hv. split; [|split].
  - eexists. split; [apply CircularShiftFilter_process_all|].
    rewrite store_pushed, decide_True, Hv by done. cbn. do 2 f_equal.
    apply flat_map_agree. intros line _. apply kept_rotations_unfold.
  - intros line i Hi. by apply front_rotation.
  - intros line k n Hk. rewrite shift_loop_from by done. do 2 f_equal.
    apply flat_map_agree. intros i Hi%in_seq.
    by rewrite front_rotation, join_spaced by lia.
Qed.

Lemma CircularShiftFilter_emits_kept_rotations_witness :
  exists m',
    CircularShiftFilter_process (mkLineRepo [] [["The"; "cat"; "sat"]; ["a"; "dog"]] ["the"; "a"])
      (mkShiftRepo 0) started
    = Ret (mkLineRepo [] [["The"; "cat"; "sat"]; ["a"; "dog"]] ["the"; "a"]) m' /\
    store m' !! 0 = Some ["cat sat The "; "sat The cat "; "dog a "].
Proof.
  exact (proj1 (CircularShiftFilter_emits_kept_rotations
                  (mkLineRepo [] [["The"; "cat"; "sat"]; ["a"; "dog"]] ["the"; "a"])
                  (mkShiftRepo 0) started [] eq_refl)).
Defined.

(** C3.  [CircularShiftFilter::process] pushes, for every stored line of
    [n] words of which [m] start positions hold a noise word, exactly
    [n - m] rotations, and none for a line without words: what it appends
    to the vector of [shifts] is one such group per line, in order. *)
Theorem CircularShiftFilter_rotation_count (lines : LineRepo) (shifts : ShiftRepo)
    (m : Machine) (v : list string) :
  store m !! getShifts shifts = Some v ->
  exists outs,
    store (final (CircularShiftFilter_process lines shifts m)) !! getShifts shifts
      = Some (v ++ concat outs) /\
    Forall2 (fun line out =>
               length out = length line - length (noise_positions (noiseWords lines) line) /\
               length (noise_positions (noiseWords lines) line) <= length line /\
               (line = [] -> out = []))
            (getLines2d lines) outs.
Proof.
  intros Hv. exists (map (kept_rotations (noiseWords lines)) (getLines2d lines)).
  rewrite CircularShiftFilter_process_all. cbn [final].
  rewrite store_pushed, decide_True, Hv by done. split.
  - cbn. by rewrite flat_map_concat_map.
  - apply Forall2_map_r. intros line.
    pose proof (kept_rotations_count (noiseWords lines) line).
    split; [lia|]. split; [lia|]. by intros ->.
Qed.

Lemma CircularShiftFilter_rotation_count_witness :
  exists outs,
    store (final (CircularShiftFilter_process
                    (mkLineRepo [] [["The"; "cat"; "the"]; []] ["the"]) (mkShiftRepo 0) started))
      !! 0 = Some ([] ++ concat outs) /\
    Forall2 (fun line out =>
               length out = length line - length (noise_positions ["the"] line) /\
               length (noise_positions ["the"] line) <= length line /\
               (line = [] -> out = []))
            [["The"; "cat"; "the"]; []] outs.
Proof.
  exact (CircularShiftFilter_rotation_count
           (mkLineRepo [] [["The"; "cat"; "the"]; []] ["the"]) (mkShiftRepo 0) started []
           eq_refl).
Defined.

(** C4.  With the noise words stored by [InputFilter] from any content of
    the noise-word file, [isNoiseWord word] is true exactly when some token
    of the file has the size of [word] and, position by position, a
    character with the same folded value: the same word up to letter case,
    as a whole string. *)
Theorem isNoiseWord_iff_token_up_to_case (word content : string) :
  isNoiseWord word (noiseWords (read_noiseWords (getlines content) LineRepo_new)) = true <->
  exists token, In token (flat_map extract_words (getlines content)) /\
                same_letters word token.
Proof.
  unfold isNoiseWord. rewrite find_string_In, noiseWords_read. cbn [noiseWords LineRepo_new app].
  rewrite in_map_iff. split.
  - intros (t & H1 & H2). exists t. split; [done|]. by apply lowered_same_letters.
  - intros (t & H1 & H2). exists t. split; [|done]. symmetry. by apply same_letters_lowered.
Qed.

(** X12.  [CircularShiftFilter::process] leaves the vector of [shifts] as it
    found it exactly when every word of every stored line is a noise word
    (lines without words included). *)
Theorem CircularShiftFilter_pushes_nothing_iff (lines : LineRepo) (shifts : ShiftRepo)
    (m : Machine) (v : list string) :
  store m !! getShifts shifts = Some v ->
  (store (final (CircularShiftFilter_process lines shifts m)) !! getShifts shifts = Some v <->
   forall line w, In line (getLines2d lines) -> In w line ->
                  isNoiseWord w (noiseWords lines) = true).
Proof.
  intros Hv. rewrite CircularShiftFilter_process_all. cbn [final].
  rewrite store_pushed, decide_True, Hv by done. cbn [fmap option_fmap option_map]. split.
  - intros [= E] line w Hline Hw.
    rewrite <- (app_nil_r v) in E at 2. apply app_inv_head in E.
    by apply (proj1 (kept_rotations_nil _ line) (flat_map_nil_all _ _ E line Hline)).
  - intros H. rewrite flat_map_all_nil; [by rewrite app_nil_r|].
    intros line Hline. apply kept_rotations_nil. intros w Hw. by apply (H line).
Qed.

Lemma CircularShiftFilter_pushes_nothing_iff_witness :
  store (final (CircularShiftFilter_process (mkLineRepo [] [["The"; "a"]; []] ["the"; "a"])
                  (mkShiftRepo 0) started)) !! 0 = Some [].
Proof.
  apply (CircularShiftFilter_pushes_nothing_iff
           (mkLineRepo [] [["The"; "a"]; []] ["the"; "a"]) (mkShiftRepo 0) started [] eq_refl).
  intros line w [<-|[<-|[]]] Hw; [|destruct Hw].
  destruct Hw as [<-|[<-|[]]]; reflexivity.
Defined.

(** X13.  Every string [CircularShiftFilter::process] pushes is made of the
    words of one stored line, each as often as in the line and each followed
    by a space, and begins with a word that is not a noise word. *)
Theorem CircularShiftFilter_pushed_words (lines : LineRepo) (shifts : ShiftRepo)
    (m : Machine) (v : list string) :
  store m !! getShifts shifts = Some v ->
  exists out,
    store (final (CircularShiftFilter_process lines shifts m)) !! getShifts shifts
      = Some (v ++ out) /\
    forall r, In r out ->
      exists line ws, In line (getLines2d lines) /\ r = join ws /\ ws ≡ₚ line /\
                      isNoiseWord (front ws) (noiseWords lines) = false.
Proof.
  intros Hv. eexists. rewrite CircularShiftFilter_process_all. cbn [final].
  rewrite store_pushed, decide_True, Hv by done. split; [reflexivity|].
  intros r (line & Hline & Hr)%in_flat_map.
  apply In_kept_rotations in Hr as (i & Hi & Hn & ->).
  exists line, (rotation i line). split; [done|]. split; [by rewrite join_spaced|].
  split; [apply rotation_perm|]. by rewrite front_rotation.
Qed.

Lemma CircularShiftFilter_pushed_words_witness :
  exists out,
    store (final (CircularShiftFilter_process (mkLineRepo [] [["The"; "cat"; "sat"]] ["the"])
                    (mkShiftRepo 0) started)) !! 0 = Some ([] ++ out) /\
    forall r, In r out ->
      exists line ws, In line [["The"; "cat"; "sat"]] /\ r = join ws /\ ws ≡ₚ line /\
                      isNoiseWord (front ws) ["the"] = false.
Proof.
  exact (CircularShiftFilter_pushed_words (mkLineRepo [] [["The"; "cat"; "sat"]] ["the"])
           (mkShiftRepo 0) started [] eq_refl).
Defined.
